(** * Stavue: store registry, store assembly and subscriptions

    A shallow embedding of [src/store.ts] ([defineStore], [setupStore] and
    the four [bind*]/[assign*] helpers) and of [createStavue], together with
    the part of the JavaScript object model and of Vue's reactivity that the
    code relies on:

    - JavaScript objects live in a heap and are referred to by location, so
      that two references to one object alias ([Object.assign] copies
      references, [structuredClone] allocates fresh objects);
    - an object is the list of its own enumerable string-keyed properties in
      insertion order (the order of [Object.keys] for keys that are not
      array indices);
    - a number is an IEEE 754 double in canonical form, so that equality of
      values is [Object.is], which is what Vue's [hasChanged] uses;
    - [reactive] returns a proxy over the very same object. Its [get] trap
      unwraps a ref found in the property and returns nested objects as
      proxies; its [set] trap stores the raw value, writes through a ref
      found in the property when the new value is not a ref, and triggers
      when the key is new or the value has changed; a write to a plain
      object triggers nothing;
    - [watch(source, cb, { deep: true, flush: 'sync' })] runs [cb]
      synchronously at every triggering write to a property that its deep
      traversal of [source] reads (Vue documents that sync watchers are not
      batched). What the traversal reads is computed from the heap when the
      write happens, which is what Vue has collected at the last run of the
      watcher as long as the objects below a state are changed through its
      proxies; several watchers of one property run in the order of their
      creation;
    - a chain of refs that leads back to itself makes Vue recurse until the
      stack overflows; reads and writes through such a chain throw
      [RangeError], the deep traversal stops following it;
    - functions of the application (action bodies, getter bodies,
      subscription callbacks) are opaque and identified by a number. A
      subscription callback is an observer: its call is recorded in a trace
      with what it is given, and it does not itself write to the store or
      change the subscriptions. A getter is taken to return [undefined].

    The file has three parts: the embedding, the vocabulary of the
    statements (with the example stores the statements are tried on), and
    the properties. *)

From Stdlib Require Floats.SpecFloat.
From stdpp Require Import base numbers strings option gmap list.

Open Scope string_scope.
Open Scope list_scope.
Open Scope nat_scope.

(** ** Numbers *)

(** A double, given by sign, mantissa and exponent in the canonical form of
    binary64: [NaN] is one value, the two zeros are two. *)
Definition is_double (x : SpecFloat.spec_float) : Prop :=
  Is_true (SpecFloat.valid_binary 53 1024 x).

Definition number : Type := sig is_double.

#[global] Instance spec_float_eq_dec : EqDecision SpecFloat.spec_float.
Proof. solve_decision. Defined.

#[global] Instance is_double_pi x : ProofIrrel (is_double x).
Proof. unfold is_double. apply _. Qed.

#[global] Instance is_double_dec x : Decision (is_double x).
Proof. unfold is_double. apply _. Defined.

#[global] Instance number_eq_dec : EqDecision number.
Proof. unfold number. apply _. Defined.

Definition NaN : number := SpecFloat.S754_nan ↾ I.

(** The double that an integer literal denotes (the nearest one, ties to
    even). *)
Definition num (z : Z) : number :=
  let x := SpecFloat.binary_normalize 53 1024 z 0 false in
  match decide (is_double x) with
  | left H => x ↾ H
  | right _ => NaN
  end.
Arguments num : simpl never.

Bind Scope Z_scope with number.
Coercion num : Z >-> number.

(** ** Values and objects *)

Abbreviation loc := nat.

Inductive value :=
| VUndefined
| VNum (n : number)
| VStr (s : string)
| VObj (l : loc)                          (* a plain (raw) object *)
| VReactive (l : loc)                     (* [reactive(l)]: the proxy of the object [l] *)
| VFun (f : nat)                          (* a function of the application *)
| VBound (f : nat) (this : loc)           (* [f.bind(this)] *)
| VRef (l : loc) (key : string)           (* [toRefs(reactive(l))[key]] *)
| VComputed (getter : nat) (this state : loc)  (* [computed(() => getter.call(this, state))] *)
| VReset (s : nat)                        (* [_methods.$reset.bind(storeInstance)] of closure [s] *)
| VSubscribe (s : nat)                    (* [_methods.$subscribe.bind(storeInstance)] of closure [s] *)
| VUnsubscribe (s : nat) (callback : nat). (* an [unsubscribe] closure over [callback] *)

#[global] Instance value_eq_dec : EqDecision value.
Proof. solve_decision. Defined.

Abbreviation obj := (list (string * value)).

Fixpoint obj_get (o : obj) (key : string) : option value :=
  match o with
  | [] => None
  | (k, v) :: r => if decide (k = key) then Some v else obj_get r key
  end.

Definition obj_has (o : obj) (key : string) : bool :=
  match obj_get o key with Some _ => true | None => false end.

(** [o[key] = v]: an existing property keeps its place, a new one goes last. *)
Fixpoint obj_set (o : obj) (key : string) (v : value) : obj :=
  match o with
  | [] => [(key, v)]
  | (k, x) :: r =>
      if decide (k = key) then (k, v) :: r else (k, x) :: obj_set r key v
  end.

(** [delete o[key]] *)
Fixpoint obj_delete (o : obj) (key : string) : obj :=
  match o with
  | [] => []
  | (k, x) :: r =>
      if decide (k = key) then obj_delete r key else (k, x) :: obj_delete r key
  end.

(** [Object.keys(o)] *)
Definition obj_keys (o : obj) : list string := o.*1.

(** Plain data as an object literal denotes it, before it is allocated. *)
#[local] Unset Elimination Schemes.
Inductive data :=
| DNum (n : number)
| DStr (s : string)
| DObj (fields : list (string * data)).
#[local] Set Elimination Schemes.

(** ** The world: heap, registries, closures, watchers, trace *)

(** The variables captured by the closures of one [setupStore] call. *)
Record Store := mkStore {
  s_id : string;
  defaultState : loc;
  reactiveState : loc;
  _subscriptions : list nat;
  _stopWatcher : option nat;
}.

(** An effect created by [watch]: the watched state, the closure whose
    [_subscriptions] its callback iterates, and whether it still runs. *)
Record Watcher := mkWatcher {
  w_source : loc;
  w_store : nat;
  w_active : bool;
}.

Inductive event :=
| EvState (id : string)
    (* [options.state()] was called while assembling store [id] *)
| EvPlugin (index : nat) (context : loc) (fields : obj) (store : obj)
    (* [plugins[index](context)] was called; the properties of the context
       and of the store instance at that moment *)
| EvCallback (callback : nat) (storeId type : string) (newState : loc) (seen : obj)
    (* [callback({ storeId, type }, newState)]; [seen] is what [newState]
       holds at that moment *)
| EvLog (v : value).
    (* the application recorded [v] *)

Record World := mkWorld {
  heap : list obj;
  maps : list (gmap string loc);   (* the [Map] objects *)
  stores : list Store;
  watchers : list Watcher;
  trace : list event;
}.

Definition empty_world : World := mkWorld [] [] [] [] [].

Inductive exn :=
| StavueNotFound      (* "[Stavue] Could not find stavue instance. ..." *)
| TypeError
| RangeError          (* "Maximum call stack size exceeded" *)
| DataCloneError
| Thrown (msg : string).

Inductive result (A : Type) :=
| Ok (a : A)
| Err (e : exn).
Arguments Ok {A} a.
Arguments Err {A} e.

(** Computations: the world is threaded through, an exception ends the
    computation and keeps the effects made so far. *)
Definition M (A : Type) : Type := World → result A * World.

#[global] Instance M_ret : MRet M := λ A a w, (Ok a, w).
#[global] Instance M_bind : MBind M := λ A B f m w,
  match m w with
  | (Ok a, w') => f a w'
  | (Err e, w') => (Err e, w')
  end.

Definition throw {A} (e : exn) : M A := λ w, (Err e, w).

Fixpoint forEach {A} (f : A → M unit) (l : list A) : M unit :=
  match l with
  | [] => mret ()
  | x :: r => f x;; forEach f r
  end.

Fixpoint forEach_from {A} (i : nat) (f : nat → A → M unit) (l : list A) : M unit :=
  match l with
  | [] => mret ()
  | x :: r => f i x;; forEach_from (S i) f r
  end.

Definition alloc (o : obj) : M loc := λ w,
  (Ok (length (heap w)),
   mkWorld (heap w ++ [o]) (maps w) (stores w) (watchers w) (trace w)).

Definition read (l : loc) : M obj := λ w,
  (Ok (default [] (heap w !! l)), w).

Definition write (l : loc) (o : obj) : M unit := λ w,
  (Ok (), mkWorld (<[l := o]> (heap w)) (maps w) (stores w) (watchers w) (trace w)).

Definition emit (e : event) : M unit := λ w,
  (Ok (), mkWorld (heap w) (maps w) (stores w) (watchers w) (trace w ++ [e])).

(** [new Map()] and its [has], [get], [set]. *)
Definition new_map : M nat := λ w,
  (Ok (length (maps w)),
   mkWorld (heap w) (maps w ++ [∅]) (stores w) (watchers w) (trace w)).

Definition the_map (m : nat) (w : World) : gmap string loc :=
  default ∅ (maps w !! m).
Arguments the_map : simpl never.

Definition map_has (m : nat) (key : string) : M bool := λ w,
  (Ok (bool_decide (is_Some (the_map m w !! key))), w).

Definition map_get (m : nat) (key : string) : M value := λ w,
  (Ok (from_option VObj VUndefined (the_map m w !! key)), w).

Definition map_set (m : nat) (key : string) (l : loc) : M unit := λ w,
  (Ok (),
   mkWorld (heap w) (<[m := <[key := l]> (the_map m w)]> (maps w))
           (stores w) (watchers w) (trace w)).

(** Closure variables. *)
Definition new_store (st : Store) : M nat := λ w,
  (Ok (length (stores w)),
   mkWorld (heap w) (maps w) (stores w ++ [st]) (watchers w) (trace w)).

Definition get_store (s : nat) : M (option Store) := λ w, (Ok (stores w !! s), w).

Definition set_store (s : nat) (st : Store) : M unit := λ w,
  (Ok (), mkWorld (heap w) (maps w) (<[s := st]> (stores w)) (watchers w) (trace w)).

(** ** Object literals and [structuredClone] *)

(** Evaluating an object literal: nested literals are allocated on the way,
    a repeated key keeps its first place and its last value. *)
Section fields.
Variable materialize : data → M value.

Fixpoint materialize_fields_with (fs : list (string * data)) (acc : obj) : M obj :=
  match fs with
  | [] => mret acc
  | (k, d) :: r =>
      v ← materialize d; materialize_fields_with r (obj_set acc k v)
  end.
End fields.

Fixpoint materialize (d : data) : M value :=
  match d with
  | DNum n => mret (VNum n)
  | DStr s => mret (VStr s)
  | DObj fields =>
      o ← materialize_fields_with materialize fields [];
      l ← alloc o;
      mret (VObj l)
  end.

Definition materialize_fields : list (string * data) → obj → M obj :=
  materialize_fields_with materialize.

(** The deep copy made by [structuredClone]: every object reached is copied
    into a fresh one. Functions and proxies cannot be cloned. The recursion
    is bounded by the number of objects in the heap, which is enough for any
    data without a cycle; shared sub-objects are copied once per path. *)
Section clone_props.
Variable clone : loc → M loc.

Definition clone_value_with (x : value) : M value :=
  match x with
  | VObj l => l' ← clone l; mret (VObj l')
  | VUndefined | VNum _ | VStr _ => mret x
  | _ => throw DataCloneError
  end.

Fixpoint clone_props_with (ps : obj) : M obj :=
  match ps with
  | [] => mret []
  | (k, x) :: r =>
      x' ← clone_value_with x;
      r' ← clone_props_with r;
      mret ((k, x') :: r')
  end.
End clone_props.

Fixpoint clone (fuel : nat) (l : loc) : M loc :=
  match fuel with
  | 0 => throw DataCloneError
  | S fuel' =>
      o ← read l;
      o' ← clone_props_with (clone fuel') o;
      alloc o'
  end.

Definition structuredClone (l : loc) : M loc := λ w,
  clone (length (heap w)) l w.

(** ** Vue: [reactive], [toRefs], [watch] *)

Definition toRaw (v : value) : value :=
  match v with VReactive l => VObj l | _ => v end.

(** [reactive(v)] for a value read from an object. *)
Definition toReactive (v : value) : value :=
  match v with VObj l => VReactive l | _ => v end.

Definition isRef (v : value) : bool :=
  match v with VRef _ _ | VComputed _ _ _ => true | _ => false end.

(** The property [key] of the object at [l], [undefined] when there is
    none. *)
Definition field (h : list obj) (l : loc) (key : string) : value :=
  default VUndefined (obj_get (default [] (h !! l)) key).

(** The number of steps after which a chain of refs has come back to a
    property it started from. *)
Definition ref_fuel (h : list obj) : nat := length (concat h).

(** What the [get] trap returns for the property value [res]: the value of
    a ref (for a handle made by [toRefs], the property it stands for, read
    through its proxy; for a computed getter, what the getter returns), a
    nested object as its proxy, anything else as it is. [None] when the
    refs lead back to where they started. *)
Fixpoint unref (fuel : nat) (h : list obj) (res : value) : option value :=
  match res with
  | VRef l key =>
      match fuel with
      | 0 => None
      | S fuel' => unref fuel' h (field h l key)
      end
  | VComputed _ _ _ => Some VUndefined
  | _ => Some (toReactive res)
  end.

(** The callback given to [watch] in [$subscribe] of closure [s]:
    [_subscriptions.forEach(callback => callback({ storeId: id, type:
    'direct' }, newState))]. *)
Definition notify (s : nat) : M unit :=
  ost ← get_store s;
  match ost with
  | None => mret ()
  | Some st =>
      forEach (λ callback,
                 seen ← read (reactiveState st);
                 emit (EvCallback callback (s_id st) "direct" (reactiveState st) seen))
              (_subscriptions st)
  end.

(** [watch(source, cb, { deep: true, flush: 'sync' })] and the handle it
    returns. *)
Definition watch (source : loc) (s : nat) : M nat := λ w,
  (Ok (length (watchers w)),
   mkWorld (heap w) (maps w) (stores w)
           (watchers w ++ [mkWatcher source s true]) (trace w)).

Definition stop (h : nat) : M unit := λ w,
  (Ok (),
   mkWorld (heap w) (maps w) (stores w)
           (alter (λ wt, mkWatcher (w_source wt) (w_store wt) false) h (watchers w))
           (trace w)).

(** The deep traversal of a watcher reads its source through the proxy:
    every property of every object it reaches, a ref being followed to the
    property it stands for. [follow] gives what reading a property value
    yields and adds the properties read on the way to [cells]. *)
Fixpoint follow (fuel : nat) (h : list obj) (v : value)
    (cells : list (loc * string)) : value * list (loc * string) :=
  match v with
  | VRef l key =>
      match fuel with
      | 0 => (VUndefined, cells)
      | S fuel' => follow fuel' h (field h l key) ((l, key) :: cells)
      end
  | VComputed _ _ _ => (VUndefined, cells)
  | _ => (v, cells)
  end.

(** [traverse(value, Infinity, seen)]: the objects visited, each once, and
    the properties read through refs. The depth is bounded by the number of
    objects. *)
Fixpoint traverse (fuel : nat) (h : list obj) (v : value)
    (seen : list loc * list (loc * string)) : list loc * list (loc * string) :=
  match fuel with
  | 0 => seen
  | S fuel' =>
      let '(x, cells) := follow (ref_fuel h) h v seen.2 in
      match x with
      | VObj l | VReactive l =>
          if bool_decide (l ∈ seen.1) then (seen.1, cells)
          else foldl (λ acc kv, traverse fuel' h kv.2 acc)
                     (l :: seen.1, cells) (default [] (h !! l))
      | _ => (seen.1, cells)
      end
  end.

(** Whether a watcher of [source] is triggered by a change of the property
    [key] of the object [l]: the traversal visits [l] (and then reads all
    its properties and its keys), or reads that property through a ref. *)
Definition tracks (h : list obj) (source : loc) (l : loc) (key : string) : bool :=
  let seen := traverse (S (length h)) h (VObj source) ([], []) in
  bool_decide (l ∈ seen.1) || bool_decide ((l, key) ∈ seen.2).

(** A triggering change of the property [key] of [l] runs, at once, every
    running watcher that tracks it. *)
Definition trigger (l : loc) (key : string) : M unit := λ w,
  forEach (λ wt, if w_active wt && tracks (heap w) (w_source wt) l key
                 then notify (w_store wt) else mret ())
          (watchers w) w.

(** [Reflect.set] and what follows it in the [set] trap: a new key, or a
    value that differs from the old one, triggers. *)
Definition set_field (l : loc) (key : string) (value : value) : M unit :=
  o ← read l;
  write l (obj_set o key value);;
  match obj_get o key with
  | None => trigger l key
  | Some oldValue =>
      if decide (toRaw oldValue = value) then mret () else trigger l key
  end.

(** The [set] trap of the proxy of [l], for a raw [value]: when the property
    holds a ref and [value] is not one, the assignment goes to the ref
    ([oldValue.value = value]: for a handle made by [toRefs], to the property
    it stands for; a computed getter ignores it). *)
Fixpoint set_trap (fuel : nat) (l : loc) (key : string) (value : value) : M unit :=
  o ← read l;
  match toRaw <$> obj_get o key with
  | Some (VRef l' key') =>
      if isRef value then set_field l key value
      else match fuel with
           | 0 => throw RangeError
           | S fuel' => set_trap fuel' l' key' value
           end
  | Some (VComputed _ _ _) =>
      if isRef value then set_field l key value else mret ()
  | _ => set_field l key value
  end.

Definition proxy_set (l : loc) (key : string) (v : value) : M unit := λ w,
  set_trap (ref_fuel (heap w)) l key (toRaw v) w.

(** The [deleteProperty] trap: triggers when the key was there. *)
Definition proxy_delete (l : loc) (key : string) : M unit :=
  o ← read l;
  write l (obj_delete o key);;
  if obj_has o key then trigger l key else mret ().

(** The [get] trap. *)
Definition proxy_get (l : loc) (key : string) : M value := λ w,
  match unref (ref_fuel (heap w)) (heap w) (field (heap w) l key) with
  | Some v => (Ok v, w)
  | None => (Err RangeError, w)
  end.

(** ** Application code: programs over values *)

(** What a plugin (or any code holding a store) does: property reads and
    writes, calls, recording a value, throwing. The continuation receives
    the value read or returned. *)
Inductive prog :=
| PRet
| PThrow (e : exn)
| PGet (base : value) (key : string) (k : value → prog)
| PSet (base : value) (key : string) (v : value) (k : prog)
| PDelete (base : value) (key : string) (k : prog)
| PCall (f : value) (arg : value) (k : value → prog)
| PLog (v : value) (k : prog).

Definition StavuePlugin := loc → prog.

(** ** types.ts *)

Record StoreOptions := mkOptions {
  o_self : value;                              (* the options object itself *)
  state : list event → result (list (string * data));
    (* the state factory: the literal it returns, or what it throws, which
       may depend on what happened before *)
  actions : option (list (string * nat));
  getters : option (list (string * nat));
}.

Record Stavue := mkStavue {
  app : value;
  activeStores : nat;                          (* the [Map] *)
  plugins : list StavuePlugin;
}.

(** ** createStavue.ts *)

Definition createStavue (options : option (list StavuePlugin)) : M Stavue :=
  activeStores ← new_map;
  app ← alloc [];
  mret (mkStavue (VObj app) activeStores (default [] options)).

Definition install (app : value) (stavue : Stavue) : Stavue :=
  mkStavue app (activeStores stavue) (plugins stavue).

(** ** store.ts *)

Definition bindActionsToStoreInstance (actions : list (string * nat))
    (storeInstance : loc) : M unit :=
  forEach (λ '(actionName, f),
             o ← read storeInstance;
             write storeInstance (obj_set o actionName (VBound f storeInstance)))
          actions.

(** [Object.assign(storeInstance, state)] reads every property of the state
    through its proxy; [toRefs(state)] makes a handle for every key. *)
Definition assignStateToStoreInstance (state : loc) (storeInstance : loc) : M unit :=
  s ← read state;
  forEach (λ key,
             v ← proxy_get state key;
             o ← read storeInstance;
             write storeInstance (obj_set o key v))
          (obj_keys s);;
  forEach (λ key,
             o ← read storeInstance;
             write storeInstance (obj_set o key (VRef state key)))
          (obj_keys s).

Definition bindGettersToStoreInstance (getters : list (string * nat))
    (state : loc) (storeInstance : loc) : M unit :=
  forEach (λ '(getterName, getter),
             let computedGetter := VComputed getter storeInstance state in
             o ← read storeInstance;
             write storeInstance (obj_set o getterName computedGetter))
          getters.

Definition bindMethodsToStoreInstance (methods : obj) (storeInstance : loc) : M unit :=
  forEach (λ '(methodName, method),
             o ← read storeInstance;
             write storeInstance (obj_set o methodName method))
          methods.

(** [$reset] of closure [s]. [Object.assign] takes the keys of its source
    first and reads each property when its turn comes. *)
Definition reset (s : nat) : M unit :=
  ost ← get_store s;
  match ost with
  | None => mret ()
  | Some st =>
      live ← read (reactiveState st);
      forEach (λ key,
                 d ← read (defaultState st);
                 if obj_has d key then mret ()
                 else proxy_delete (reactiveState st) key)
              (obj_keys live);;
      d ← read (defaultState st);
      forEach (λ key,
                 d' ← read (defaultState st);
                 match obj_get d' key with
                 | Some v => proxy_set (reactiveState st) key v
                 | None => mret ()
                 end)
              (obj_keys d)
  end.

(** [$subscribe] of closure [s]; the result is the [unsubscribe] closure. *)
Definition subscribe (s : nat) (callback : nat) : M value :=
  ost ← get_store s;
  match ost with
  | None => mret (VUnsubscribe s callback)
  | Some st =>
      let subs := _subscriptions st ++ [callback] in
      set_store s (mkStore (s_id st) (defaultState st) (reactiveState st) subs (_stopWatcher st));;
      match _stopWatcher st with
      | Some _ => mret ()
      | None =>
          h ← watch (reactiveState st) s;
          set_store s (mkStore (s_id st) (defaultState st) (reactiveState st) subs (Some h))
      end;;
      mret (VUnsubscribe s callback)
  end.

(** [Array.prototype.indexOf]: [None] stands for [-1]. *)
Fixpoint indexOf (l : list nat) (x : nat) : option nat :=
  match l with
  | [] => None
  | y :: r => if decide (y = x) then Some 0 else S <$> indexOf r x
  end.

Definition unsubscribe (s : nat) (callback : nat) : M unit :=
  ost ← get_store s;
  match ost with
  | None => mret ()
  | Some st =>
      match indexOf (_subscriptions st) callback with
      | Some index =>
          let subs := delete index (_subscriptions st) in
          set_store s (mkStore (s_id st) (defaultState st) (reactiveState st) subs (_stopWatcher st));;
          match subs, _stopWatcher st with
          | [], Some h =>
              stop h;;
              set_store s (mkStore (s_id st) (defaultState st) (reactiveState st) subs None)
          | _, _ => mret ()
          end
      | None => mret ()
      end
  end.

Definition _methods (s : nat) : obj :=
  [("$reset", VReset s); ("$subscribe", VSubscribe s)].

(** [options.state()], then the literal it returns is allocated. *)
Definition call_state (id : string) (options : StoreOptions) : M loc := λ w,
  match state options (trace w) with
  | Ok fields => (emit (EvState id);; o ← materialize_fields fields []; alloc o) w
  | Err e => (emit (EvState id);; throw e) w
  end.

(** [setupStore] up to and including [bindMethodsToStoreInstance]: the
    instance and the closure it belongs to. *)
Definition assemble (id : string) (options : StoreOptions) : M (loc * nat) :=
  storeInstance ← alloc [];
  let actions := default [] (actions options) in
  let getters := default [] (getters options) in
  initialState ← call_state id options;
  defaultState ← structuredClone initialState;
  let reactiveState := initialState in
  s ← new_store (mkStore id defaultState reactiveState [] None);
  bindActionsToStoreInstance actions storeInstance;;
  assignStateToStoreInstance reactiveState storeInstance;;
  bindGettersToStoreInstance getters reactiveState storeInstance;;
  bindMethodsToStoreInstance (_methods s) storeInstance;;
  mret (storeInstance, s).

(** ** Running application code *)

Definition get_prop (base : value) (key : string) : M value :=
  match base with
  | VObj l => o ← read l; mret (default VUndefined (obj_get o key))
  | VReactive l => proxy_get l key
  | VRef l k => if decide (key = "value") then proxy_get l k else mret VUndefined
  | VUndefined => throw TypeError
  | _ => mret VUndefined
  end.

Definition set_prop (base : value) (key : string) (v : value) : M unit :=
  match base with
  | VObj l => o ← read l; write l (obj_set o key v)
  | VReactive l => proxy_set l key v
  | VRef l k => if decide (key = "value") then proxy_set l k v else mret ()
  | VUndefined => throw TypeError
  | _ => mret ()
  end.

Definition delete_prop (base : value) (key : string) : M unit :=
  match base with
  | VObj l => o ← read l; write l (obj_delete o key)
  | VReactive l => proxy_delete l key
  | VUndefined => throw TypeError
  | _ => mret ()
  end.

(** Calling a value: the built-in methods run; functions of the application
    are opaque and return [undefined]; anything else is not callable.
    [$subscribe] is modelled for an argument that is a function of the
    application, which is what [SubscriptionCallback] asks for; the code
    itself would register whatever it is given. *)
Definition call (f : value) (arg : value) : M value :=
  match f with
  | VReset s => reset s;; mret VUndefined
  | VSubscribe s =>
      match arg with
      | VFun callback => subscribe s callback
      | _ => throw TypeError
      end
  | VUnsubscribe s callback => unsubscribe s callback;; mret VUndefined
  | VFun _ | VBound _ _ => mret VUndefined
  | _ => throw TypeError
  end.

Fixpoint run (p : prog) : M unit :=
  match p with
  | PRet => mret ()
  | PThrow e => throw e
  | PGet base key k => v ← get_prop base key; run (k v)
  | PSet base key v k => set_prop base key v;; run k
  | PDelete base key k => delete_prop base key;; run k
  | PCall f arg k => v ← call f arg; run (k v)
  | PLog v k => emit (EvLog v);; run k
  end.

(** The [plugins.forEach] of [setupStore]. *)
Definition runPlugins (id : string) (options : StoreOptions) (stavue : Stavue)
    (storeInstance : loc) (from : nat) (plugins : list StavuePlugin) : M unit :=
  forEach_from from
    (λ index plugin,
       context ← alloc [("store", VObj storeInstance); ("id", VStr id);
                        ("options", o_self options); ("app", app stavue)];
       fields ← read context;
       seen ← read storeInstance;
       emit (EvPlugin index context fields seen);;
       run (plugin context))
    plugins.

Definition setupStore (id : string) (options : StoreOptions) (stavue : Stavue) : M loc :=
  '(storeInstance, _) ← assemble id options;
  runPlugins id options stavue storeInstance 0 (plugins stavue);;
  mret storeInstance.

(** [defineStore(id, options)] returns [useStore]; [injected] is what
    [inject(stavueSymbol)] gives at the call. *)
Definition defineStore (id : string) (options : StoreOptions)
    : option Stavue → M value :=
  λ injected,
    match injected with
    | None => throw StavueNotFound
    | Some stavue =>
        has ← map_has (activeStores stavue) id;
        (if has : bool then mret ()
         else store ← setupStore id options stavue;
              map_set (activeStores stavue) id store);;
        map_get (activeStores stavue) id
    end.

(** * Vocabulary of the statements *)

(** ** Worlds and traces *)

(** The object at a location. *)
Definition the_obj (w : World) (l : loc) : obj := default [] (heap w !! l).

(** A world with more events recorded, or with another heap. *)
Definition add_trace (w : World) (evs : list event) : World :=
  mkWorld (heap w) (maps w) (stores w) (watchers w) (trace w ++ evs).

Definition set_heap (w : World) (h : list obj) : World :=
  mkWorld h (maps w) (stores w) (watchers w) (trace w).

(** Selections of the trace. *)
Definition is_state (e : event) : bool :=
  match e with EvState _ => true | _ => false end.
Definition is_plugin (e : event) : bool :=
  match e with EvPlugin _ _ _ _ => true | _ => false end.
Definition callback_of (e : event) : option nat :=
  match e with EvCallback c _ _ _ _ => Some c | _ => None end.

Definition state_calls (w : World) : list event := filter is_state (trace w).
Definition plugin_calls (w : World) : list event := filter is_plugin (trace w).

(** The callbacks called by a list of events, in order. *)
Definition callbacks (evs : list event) : list nat := omap callback_of evs.

(** The values that application code recorded. *)
Definition logged (w : World) : list value :=
  omap (λ e, match e with EvLog v => Some v | _ => None end) (trace w).

(** The index and the context object of each plugin call of the trace. *)
Definition plugin_contexts (w : World) : list (nat * loc) :=
  omap (λ e, match e with EvPlugin i c _ _ => Some (i, c) | _ => None end) (trace w).

(** The events that running [m] in [w] records. *)
Definition new_events {A} (m : M A) (w : World) : list event :=
  drop (length (trace w)) (trace (m w).2).

(** The instance registered under [id], if any. *)
Definition registered (stavue : Stavue) (id : string) (w : World) : option loc :=
  the_map (activeStores stavue) w !! id.

(** [useStore] called [n] times in a row; the result of the last call. *)
Fixpoint repeat_useStore (useStore : option Stavue → M value) (stavue : Stavue)
    (n : nat) (first : value) : M value :=
  match n with
  | 0 => mret first
  | S n' => v ← useStore (Some stavue); repeat_useStore useStore stavue n' v
  end.

(** ** Relations between worlds *)

(** A computation relates every world to the one it leaves in the way [R]
    says. *)
Definition respects (R : World → World → Prop) {A} (m : M A) : Prop :=
  ∀ w, R w (m w).2.

(** The relations used: [f] is the same, the heap has not shrunk. *)
Definition same {X} (f : World → X) : World → World → Prop :=
  λ w w', f w' = f w.

Definition heap_grows : World → World → Prop :=
  λ w w', length (heap w) ≤ length (heap w').

(** For heaps: everything there stays where it is. *)
Definition heap_extends : World → World → Prop :=
  λ w w', heap w `prefix_of` heap w'.

(** Exactly one more call of the state factory of [id]. *)
Definition one_state_call (id : string) : World → World → Prop :=
  λ w w', state_calls w' = state_calls w ++ [EvState id].

(** Events that application code and watchers add to the trace. *)
Definition app_event (e : event) : Prop :=
  is_state e = false ∧ is_plugin e = false.

(** A relation between worlds that tolerates writing and allocating
    objects. *)
Class heap_frame (R : World → World → Prop) : Prop := {
  hf_preorder :: PreOrder R;
  hf_heap : ∀ w h, length (heap w) ≤ length h → R w (set_heap w h);
}.

(** A relation that tolerates everything application code can do: writing
    and allocating objects, recording callback calls and logged values,
    changing closure variables and watchers. *)
Class app_frame (R : World → World → Prop) : Prop := {
  af_heap_frame :: heap_frame R;
  af_trace : ∀ w evs, Forall app_event evs → R w (add_trace w evs);
  af_stores : ∀ w ss, R w (mkWorld (heap w) (maps w) ss (watchers w) (trace w));
  af_watchers : ∀ w ws, R w (mkWorld (heap w) (maps w) (stores w) ws (trace w));
}.

(** ** Data *)

(** Induction over data, through the fields of object literals. *)
Definition data_ind (P : data → Prop)
    (Hnum : ∀ n, P (DNum n)) (Hstr : ∀ s, P (DStr s))
    (Hobj : ∀ fields, Forall (λ kd, P kd.2) fields → P (DObj fields)) :
    ∀ d, P d :=
  fix go (d : data) : P d :=
    match d with
    | DNum n => Hnum n
    | DStr s => Hstr s
    | DObj fields =>
        Hobj fields
          ((fix all (fs : list (string * data)) : Forall (λ kd, P kd.2) fs :=
              match fs with
              | [] => List.Forall_nil _
              | kd :: r => List.Forall_cons _ kd r (go kd.2) (all r)
              end) fields)
    end.

(** [v] is plain data of height at most [n] in the heap [h]: numbers,
    strings and objects of such, without functions or proxies. *)
Fixpoint plain_data (h : list obj) (n : nat) (v : value) : Prop :=
  match v with
  | VUndefined | VNum _ | VStr _ => True
  | VObj l =>
      match n with
      | 0 => False
      | S n' => ∃ o, h !! l = Some o ∧ Forall (λ kv, plain_data h n' kv.2) o
      end
  | _ => False
  end.

(** The data that a value denotes in a heap, read through nested objects. *)
Fixpoint read_data (fuel : nat) (h : list obj) (v : value) : option data :=
  match v with
  | VNum n => Some (DNum n)
  | VStr s => Some (DStr s)
  | VObj l =>
      match fuel with
      | 0 => None
      | S fuel' =>
          o ← h !! l;
          fields ← mapM (λ kv, d ← read_data fuel' h kv.2; Some (kv.1, d)) o;
          Some (DObj fields)
      end
  | _ => None
  end.

(** ** Triggers *)

(** Whether the [set] trap triggers when the property does not hold a ref:
    the key is new or its raw value differs. *)
Definition changes (o : obj) (key : string) (v : value) : bool :=
  match obj_get o key with
  | None => true
  | Some oldValue => bool_decide (toRaw oldValue ≠ toRaw v)
  end.

(** No property of the object holds a ref. *)
Definition holds_no_ref (o : obj) : Prop :=
  Forall (λ kv, isRef kv.2 = false) o.

(** The event of one callback call by the watcher of closure [st]. *)
Definition callback_event (st : Store) (seen : obj) (callback : nat) : event :=
  EvCallback callback (s_id st) "direct" (reactiveState st) seen.

(** What one trigger of the property [key] of [l] delivers, in order: every
    running watcher that tracks it calls every callback of its closure. *)
Definition deliveries_of (w : World) (wt : Watcher) (l : loc) (key : string)
    : list event :=
  if w_active wt && tracks (heap w) (w_source wt) l key then
    match stores w !! w_store wt with
    | Some st =>
        map (callback_event st (default [] (heap w !! reactiveState st)))
            (_subscriptions st)
    | None => []
    end
  else [].

Definition deliveries (w : World) (l : loc) (key : string) : list event :=
  flat_map (λ wt, deliveries_of w wt l key) (watchers w).

(** What one trigger of a property of the state [root] delivers when the
    state holds [o]. *)
Definition notifications (w : World) (root : loc) (o : obj) (key : string)
    : list event :=
  deliveries (set_heap w (<[root := o]> (heap w))) root key.

(** The world during a mutation of the state [root]: the state holds [o],
    the events [evs] have been recorded. *)
Definition during (w : World) (root : loc) (st : obj * list event) : World :=
  mkWorld (<[root := st.1]> (heap w)) (maps w) (stores w) (watchers w)
          (trace w ++ st.2).

(** ** The wiring of an instance *)

(** The last binding of a key in a list of named things. *)
Fixpoint last_binding {A} (l : list (string * A)) (key : string) : option A :=
  match l with
  | [] => None
  | (k, a) :: r =>
      match last_binding r key with
      | Some b => Some b
      | None => if decide (k = key) then Some a else None
      end
  end.

(** The properties of an instance after the four wiring steps of
    [setupStore], in the order in which they assign. *)
Definition wired (storeInstance state : loc) (stateObj : obj)
    (options : StoreOptions) (s : nat) : obj :=
  let o1 := foldl (λ o '(actionName, f), obj_set o actionName (VBound f storeInstance))
                  [] (default [] (actions options)) in
  let o2 := foldl (λ o '(key, _),
                     obj_set o key (toReactive (default VUndefined (obj_get stateObj key))))
                  o1 stateObj in
  let o3 := foldl (λ o '(key, _), obj_set o key (VRef state key)) o2 stateObj in
  let o4 := foldl (λ o '(getterName, getter),
                     obj_set o getterName (VComputed getter storeInstance state))
                  o3 (default [] (getters options)) in
  foldl (λ o '(methodName, method), obj_set o methodName method) o4 (_methods s).

(** ** Subscriptions and the watcher *)

(** A closure and a world after a change of subscriptions. *)
Definition with_subscriptions (st : Store) (subs : list nat) (h : option nat) : Store :=
  mkStore (s_id st) (defaultState st) (reactiveState st) subs h.

Definition set_closure (w : World) (s : nat) (st : Store) (ws : list Watcher) : World :=
  mkWorld (heap w) (maps w) (<[s := st]> (stores w)) ws (trace w).

Definition stopped (wt : Watcher) : Watcher :=
  mkWatcher (w_source wt) (w_store wt) false.

(** The subscriptions of closure [s]. *)
Definition subscriptions (w : World) (s : nat) : list nat :=
  from_option _subscriptions [] (stores w !! s).

(** Closure [s] has a running watcher. *)
Definition has_watcher (w : World) (s : nat) : Prop :=
  ∃ h wt, watchers w !! h = Some wt ∧ w_store wt = s ∧ w_active wt = true.

(** [_stopWatcher] is set exactly when there are subscriptions, and then it
    is the handle of the one running watcher of the closure, which watches
    its state; otherwise the closure has no running watcher. *)
Definition watcher_inv (w : World) (s : nat) : Prop :=
  ∃ st, stores w !! s = Some st ∧
    match _stopWatcher st with
    | Some h =>
        _subscriptions st ≠ [] ∧
        watchers w !! h = Some (mkWatcher (reactiveState st) s true) ∧
        ∀ h' wt, watchers w !! h' = Some wt → w_store wt = s →
                 w_active wt = true → h' = h
    | None =>
        _subscriptions st = [] ∧
        ∀ h wt, watchers w !! h = Some wt → w_store wt = s → w_active wt = false
    end.

(** Every watcher belongs to a closure that exists. *)
Definition watchers_closed (w : World) : Prop :=
  ∀ h wt, watchers w !! h = Some wt → w_store wt < length (stores w).

(** Whatever the object [root] holds, every running watcher that tracks
    one of its properties belongs to closure [s]: no other store's watcher
    reaches it. *)
Definition sole_watcher (w : World) (s : nat) (root : loc) : Prop :=
  ∀ o key h wt, watchers w !! h = Some wt → w_active wt = true →
                tracks (<[root := o]> (heap w)) (w_source wt) root key = true →
                w_store wt = s.

(** A list without the first occurrence of [x]. *)
Fixpoint remove_first (x : nat) (l : list nat) : list nat :=
  match l with
  | [] => []
  | y :: r => if decide (y = x) then r else y :: remove_first x r
  end.

(** ** [$reset] *)

(** One step of the first loop of [$reset]: a field that the snapshot does
    not have is deleted. *)
Definition reset_delete (w : World) (root : loc) (dflt : obj)
    (st : obj * list event) (key : string) : obj * list event :=
  if obj_has dflt key then st
  else (obj_delete st.1 key,
        st.2 ++ if obj_has st.1 key
                then notifications w root (obj_delete st.1 key) key else []).

(** One step of [Object.assign(reactiveState, defaultState)], for a state
    that holds no ref. *)
Definition reset_assign (w : World) (root : loc)
    (st : obj * list event) (kv : string * value) : obj * list event :=
  (obj_set st.1 kv.1 (toRaw kv.2),
   st.2 ++ if changes st.1 kv.1 kv.2
           then notifications w root (obj_set st.1 kv.1 (toRaw kv.2)) kv.1 else []).

Definition reset_result (w : World) (root : loc) (live dflt : obj)
    : obj * list event :=
  foldl (reset_assign w root)
        (foldl (reset_delete w root dflt) (live, []) (obj_keys live)) dflt.

(** The fields of the live state that the snapshot does not have. *)
Definition removed_fields (live dflt : obj) : list string :=
  filter (λ k, obj_has dflt k = false) (obj_keys live).

(** The fields of the snapshot that the live state does not have, or has
    with another value. *)
Definition changed_fields (live dflt : obj) : obj :=
  filter (λ kv, changes live kv.1 kv.2 = true) dflt.

(** The successive contents of the state during [$reset]: what it holds
    after each removal of a field that the snapshot does not have, ... *)
Fixpoint removals (dflt cur : obj) (keys : list string) : list obj :=
  match keys with
  | [] => []
  | key :: rest =>
      if obj_has dflt key then removals dflt cur rest
      else if obj_has cur key
           then obj_delete cur key :: removals dflt (obj_delete cur key) rest
           else removals dflt cur rest
  end.

(** ... what it holds when the removals are done, ... *)
Definition without_removed (dflt live : obj) : obj :=
  foldl (λ o key, if obj_has dflt key then o else obj_delete o key)
        live (obj_keys live).

(** ... and what it holds after each assignment of a snapshot field that
    changes it. *)
Fixpoint restorations (cur dflt : obj) : list obj :=
  match dflt with
  | [] => []
  | (key, v) :: rest =>
      if changes cur key v
      then obj_set cur key (toRaw v) :: restorations (obj_set cur key (toRaw v)) rest
      else restorations (obj_set cur key (toRaw v)) rest
  end.

Definition reset_steps (live dflt : obj) : list obj :=
  removals dflt live (obj_keys live)
  ++ restorations (without_removed dflt live) dflt.

(** [store.a = 99; store.newField = 'x'; store.$reset()] on the instance
    object [store]. *)
Definition assign_then_reset (store : loc) : prog :=
  PSet (VObj store) "a" (VNum 99) (
  PSet (VObj store) "newField" (VStr "x") (
  PGet (VObj store) "$reset" (λ reset,
  PCall reset VUndefined (λ _, PRet)))).

(** [store.$subscribe(callback); store[key] = v] on the instance object
    [store]. *)
Definition subscribe_then_assign (store : loc) (callback : nat)
    (key : string) (v : value) : prog :=
  PGet (VObj store) "$subscribe" (λ subscribe,
  PCall subscribe (VFun callback) (λ _,
  PSet (VObj store) key v PRet)).

(** ** Plugins *)

(** The context object literal that [setupStore] passes to a plugin. *)
Definition context_fields (id : string) (options : StoreOptions) (stavue : Stavue)
    (storeInstance : loc) : obj :=
  [("store", VObj storeInstance); ("id", VStr id);
   ("options", o_self options); ("app", app stavue)].

(** The plugin events for the plugins from index [from] on, given for each
    the context it received and the instance as it was then. *)
Definition plugin_events (fields : obj) (from : nat) (calls : list (loc * obj))
    : list event :=
  imap (λ i c, EvPlugin (from + i) c.1 fields c.2) calls.

(** The world in which a plugin starts: a context object, new, holds
    [fields]; the call is recorded with the instance as it is. *)
Definition plugin_start (fields : obj) (storeInstance : loc) (index : nat)
    (w : World) : World :=
  mkWorld (heap w ++ [fields]) (maps w) (stores w) (watchers w)
          (trace w ++ [EvPlugin index (length (heap w)) fields
                                (the_obj w storeInstance)]).

(** Plugins run in turn: each one once, in list order, on a context object
    of its own, in the world that the plugin before it has left; an
    exception ends the turn. *)
Fixpoint plugins_in_turn (fields : obj) (storeInstance : loc) (index : nat)
    (ps : list StavuePlugin) (w : World) : result unit * World :=
  match ps with
  | [] => (Ok (), w)
  | plugin :: rest =>
      match run (plugin (length (heap w)))
                (plugin_start fields storeInstance index w) with
      | (Ok _, w') => plugins_in_turn fields storeInstance (S index) rest w'
      | (Err e, w') => (Err e, w')
      end
  end.

(** A plugin that records its name. *)
Definition recording_plugin (name : string) : StavuePlugin :=
  λ _, PLog (VStr name) PRet.

(** ** Example stores *)

(** The registry that [createStavue()] makes in the empty world. *)
Definition plain_stavue : Stavue := mkStavue (VObj 0) 0 [].

(** The world after [createStavue()]. *)
Definition plain_world : World := (createStavue None empty_world).2.

(** A store with state [{ a: 1, b: 2 }], an action and a getter. *)
Definition counter_options : StoreOptions :=
  mkOptions VUndefined (λ _, Ok [("a", DNum 1); ("b", DNum 2)])
            (Some [("increment", 0)]) (Some [("double", 1)]).

(** The world after the first [useStore()] of the counter store. *)
Definition counter_world : World :=
  (defineStore "counter" counter_options (Some plain_stavue) plain_world).2.



(** A store whose names clash across state, actions and getters. *)
Definition clash_options : StoreOptions :=
  mkOptions VUndefined
            (λ _, Ok [("a", DNum 1); ("b", DNum 2); ("$reset", DNum 3)])
            (Some [("a", 10); ("b", 11); ("go", 12); ("$subscribe", 13)])
            (Some [("b", 20); ("$reset", 21)]).

(** The world after its assembly. *)
Definition clash_world : World := (assemble "clash" clash_options plain_world).2.

(** The same callback subscribed twice to the store of [clash_world]; both
    calls return an [unsubscribe] closure over that callback. *)
Definition subscribed_twice : World :=
  (subscribe 0 7 (subscribe 0 7 clash_world).2).2.

(** The first [unsubscribe] closure called once. *)
Definition unsubscribed_once : World :=
  (call (VUnsubscribe 0 7) VUndefined subscribed_twice).2.

(** The counter store with callback [7] subscribed. *)
Definition subscribed_counter_world : World := (subscribe 0 7 counter_world).2.

(** The subscribed counter store with both fields changed through their
    handles. *)
Definition change_both : prog :=
  PGet (VObj 1) "a" (λ a, PSet a "value" (VNum 10) (
  PGet (VObj 1) "b" (λ b, PSet b "value" (VNum 20) PRet))).

(** The world after these writes. *)
Definition changed_counter_world : World :=
  (run change_both subscribed_counter_world).2.

(** A plugin that changes its context and the store, and one that records
    what it finds in its own context and in the store. *)
Definition writing_plugin : StavuePlugin := λ context,
  PLog (VStr "p1") (
  PSet (VObj context) "id" (VStr "changed") (
  PSet (VObj context) "extra" (VNum 1) (
  PGet (VObj context) "store" (λ store,
  PSet store "patched" (VNum 1) PRet)))).

Definition reading_plugin : StavuePlugin := λ context,
  PLog (VStr "p2") (
  PGet (VObj context) "id" (λ id, PLog id (
  PGet (VObj context) "extra" (λ extra, PLog extra (
  PGet (VObj context) "store" (λ store,
  PGet store "patched" (λ patched, PLog patched PRet))))))).

(** A registry with two plugins that record their names. *)
Definition recording_stavue : Stavue :=
  mkStavue (VObj 0) 0 [recording_plugin "p1"; recording_plugin "p2"].



(** A registry with these two plugins, and the world after one assembly. *)
Definition plugin_stavue : Stavue :=
  mkStavue (VObj 0) 0 [writing_plugin; reading_plugin].

Definition plugin_world : World :=
  (setupStore "counter" counter_options plugin_stavue plain_world).2.

(** A store whose state has a nested object: [{ a: { x: 1 } }]. *)
Definition nested_options : StoreOptions :=
  mkOptions VUndefined (λ _, Ok [("a", DObj [("x", DNum 1)])]) None None.

(** The world after its first [useStore()]. *)
Definition nested_world : World :=
  (defineStore "nested" nested_options (Some plain_stavue) plain_world).2.

(** [store.$reset(); store.a.value.x = 2] *)
Definition reset_then_write_nested : prog :=
  PGet (VObj 1) "$reset" (λ reset,
  PCall reset VUndefined (λ _,
  PGet (VObj 1) "a" (λ a,
  PGet a "value" (λ nested,
  PSet nested "x" (VNum 2) PRet)))).

(** The world after that. *)
Definition nested_written_world : World :=
  (run reset_then_write_nested nested_world).2.

(** * Properties *)

(** ** The monad *)

Lemma bind_unfold {A B} (m : M A) (f : A → M B) w :
  (m ≫= f) w = match m w with (Ok a, w') => f a w' | (Err e, w') => (Err e, w') end.
Proof. reflexivity. Qed.

Lemma bind_ok {A B} (m : M A) (f : A → M B) w a w' :
  m w = (Ok a, w') → (m ≫= f) w = f a w'.
Proof. intros H. by rewrite bind_unfold, H. Qed.

#[global] Instance same_preorder {X} (f : World → X) : PreOrder (same f).
Proof.
  split; [intros x; reflexivity |].
  intros x y z H1 H2. unfold same in *. congruence.
Qed.

#[global] Instance heap_grows_preorder : PreOrder heap_grows.
Proof.
  split; [intros x; unfold heap_grows; lia |].
  intros x y z H1 H2. unfold heap_grows in *. lia.
Qed.

Section respects.
Context (R : World → World → Prop) `{!PreOrder R}.

Lemma respects_ret {A} (a : A) : respects R (mret a).
Proof. intros w. simpl. reflexivity. Qed.

Lemma respects_throw {A} e : respects R (@throw A e).
Proof. intros w. simpl. reflexivity. Qed.

Lemma respects_bind {A B} (m : M A) (f : A → M B) :
  respects R m → (∀ a, respects R (f a)) → respects R (m ≫= f).
Proof.
  intros Hm Hf w. rewrite bind_unfold. specialize (Hm w).
  destruct (m w) as [[a|e] w']; simpl in *; [|done].
  etrans; [apply Hm | apply Hf].
Qed.

Lemma respects_forEach {A} (f : A → M unit) l :
  (∀ x, respects R (f x)) → respects R (forEach f l).
Proof.
  intros Hf. induction l as [|x l IH]; simpl.
  - apply respects_ret.
  - apply respects_bind; [apply Hf | intros _; apply IH].
Qed.

Lemma respects_forEach_from {A} (f : nat → A → M unit) l i :
  (∀ j x, respects R (f j x)) → respects R (forEach_from i f l).
Proof.
  intros Hf. revert i. induction l as [|x l IH]; intros i; simpl.
  - apply respects_ret.
  - apply respects_bind; [apply Hf | intros _; apply IH].
Qed.
End respects.

(** One step of a proof that a computation respects a relation. *)
Ltac respects_step :=
  lazymatch goal with
  | |- respects _ (mret _) => apply respects_ret; try apply _
  | |- respects _ (throw _) => apply respects_throw; try apply _
  | |- respects _ (mbind _ _) => apply respects_bind; [try apply _ | | intros ?]
  | |- respects _ (forEach _ _) => apply respects_forEach; [try apply _ | intros ?]
  | |- respects _ (forEach_from _ _ _) =>
      apply respects_forEach_from; [try apply _ | intros ? ?]
  | |- respects _ (match ?x with _ => _ end) => destruct x
  end.

(** ** Vue's primitives in closed form *)

Lemma add_trace_nil w : add_trace w [] = w.
Proof. destruct w; unfold add_trace; simpl. by rewrite app_nil_r. Qed.

Lemma add_trace_app w evs evs' :
  add_trace (add_trace w evs) evs' = add_trace w (evs ++ evs').
Proof. unfold add_trace; simpl. by rewrite app_assoc. Qed.

Lemma forEach_read_emit (l : loc) (f : obj → nat → event) (cbs : list nat) w :
  forEach (λ c, seen ← read l; emit (f seen c)) cbs w
  = (Ok (), add_trace w (map (f (default [] (heap w !! l))) cbs)).
Proof.
  revert w. induction cbs as [|c cbs IH]; intros w; simpl.
  - by rewrite add_trace_nil.
  - rewrite bind_unfold. simpl. rewrite IH. simpl.
    unfold add_trace at 1. simpl. by rewrite <- app_assoc.
Qed.

Lemma notify_spec s w :
  notify s w =
  (Ok (), add_trace w match stores w !! s with
                      | Some st => map (callback_event st (default [] (heap w !! reactiveState st)))
                                       (_subscriptions st)
                      | None => []
                      end).
Proof.
  unfold notify. rewrite bind_unfold. simpl.
  destruct (stores w !! s) as [st|]; simpl.
  - apply (forEach_read_emit (reactiveState st) (callback_event st)).
  - by rewrite add_trace_nil.
Qed.

Lemma trigger_spec l key w :
  trigger l key w = (Ok (), add_trace w (deliveries w l key)).
Proof.
  unfold trigger, deliveries.
  assert (∀ ws w',
            heap w' = heap w → stores w' = stores w →
            forEach (λ wt, if w_active wt && tracks (heap w) (w_source wt) l key
                           then notify (w_store wt) else mret ()) ws w'
            = (Ok (), add_trace w' (flat_map (λ wt, deliveries_of w wt l key) ws)))
    as H; [|by apply H].
  induction ws as [|wt ws IH]; intros w' Hh Hs; simpl.
  - by rewrite add_trace_nil.
  - rewrite bind_unfold.
    assert ((if w_active wt && tracks (heap w) (w_source wt) l key
             then notify (w_store wt) else mret ()) w'
            = (Ok (), add_trace w' (deliveries_of w wt l key))) as ->.
    { unfold deliveries_of.
      destruct (w_active wt && tracks (heap w) (w_source wt) l key).
      - rewrite notify_spec, Hs, Hh. done.
      - simpl. by rewrite add_trace_nil. }
    rewrite IH by done. by rewrite add_trace_app.
Qed.

Lemma set_field_spec l key value w :
  set_field l key value w =
  let w1 := set_heap w (<[l := obj_set (the_obj w l) key value]> (heap w)) in
  (Ok (), match obj_get (the_obj w l) key with
          | Some oldValue =>
              if decide (toRaw oldValue = value) then w1
              else add_trace w1 (deliveries w1 l key)
          | None => add_trace w1 (deliveries w1 l key)
          end).
Proof.
  unfold set_field, the_obj. rewrite !bind_unfold. simpl.
  destruct (obj_get (default [] (heap w !! l)) key) as [old|].
  - destruct (decide (toRaw old = value)); [done|]. apply trigger_spec.
  - apply trigger_spec.
Qed.

Lemma isRef_toRaw v : isRef (toRaw v) = isRef v.
Proof. by destruct v. Qed.

(** A property that holds no ref is assigned where it is. *)
Lemma set_trap_no_ref fuel l key value w :
  isRef (field (heap w) l key) = false →
  set_trap fuel l key value w = set_field l key value w.
Proof.
  unfold field. intros Href.
  destruct fuel; simpl; rewrite bind_unfold; simpl;
    destruct (obj_get (default [] (heap w !! l)) key) as [[]|]; simpl in *;
    done.
Qed.

Lemma proxy_set_spec l key v w :
  isRef (field (heap w) l key) = false →
  proxy_set l key v w =
  let w1 := set_heap w (<[l := obj_set (the_obj w l) key (toRaw v)]> (heap w)) in
  (Ok (), if changes (the_obj w l) key v then add_trace w1 (deliveries w1 l key) else w1).
Proof.
  intros Href. unfold proxy_set. rewrite set_trap_no_ref by done.
  rewrite set_field_spec. unfold changes. simpl.
  destruct (obj_get (the_obj w l) key) as [old|]; [|done].
  destruct (decide (toRaw old = toRaw v)) as [He|He].
  - rewrite bool_decide_eq_false_2 by (intros H; by apply H). done.
  - rewrite bool_decide_eq_true_2 by done. done.
Qed.

Lemma proxy_delete_spec l key w :
  proxy_delete l key w =
  let w1 := set_heap w (<[l := obj_delete (the_obj w l) key]> (heap w)) in
  (Ok (), if obj_has (the_obj w l) key then add_trace w1 (deliveries w1 l key) else w1).
Proof.
  unfold proxy_delete, the_obj. rewrite !bind_unfold. simpl.
  destruct (obj_has (default [] (heap w !! l)) key).
  - apply trigger_spec.
  - done.
Qed.

(** A property that holds no ref is read as it is, a nested object as its
    proxy. *)
Lemma unref_no_ref fuel h res :
  isRef res = false → unref fuel h res = Some (toReactive res).
Proof. by destruct fuel, res. Qed.

Lemma proxy_get_spec l key w :
  isRef (field (heap w) l key) = false →
  proxy_get l key w = (Ok (toReactive (field (heap w) l key)), w).
Proof. intros Href. unfold proxy_get. by rewrite unref_no_ref. Qed.

(** ** What heap operations and application code leave alone *)

Lemma deliveries_app_events w l key : Forall app_event (deliveries w l key).
Proof.
  unfold deliveries. apply Forall_flat_map, Forall_forall. intros wt _.
  unfold deliveries_of.
  destruct (w_active wt && tracks (heap w) (w_source wt) l key); [|constructor].
  destruct (stores w !! w_store wt) as [st|]; [|constructor].
  apply Forall_map, Forall_forall. intros c _. by split.
Qed.

Lemma filter_app_events (P : event → bool) evs :
  (∀ e, app_event e → P e = false) →
  Forall app_event evs → filter P evs = [].
Proof.
  intros HP. induction 1 as [|e evs He _ IH]; [done|].
  rewrite filter_cons, IH. apply HP in He.
  destruct (decide (P e)) as [Hd|]; [|done]. rewrite He in Hd. done.
Qed.

#[global] Instance heap_frame_same_stores : heap_frame (same stores).
Proof. split; [apply _ | done]. Qed.

#[global] Instance heap_frame_same_watchers : heap_frame (same watchers).
Proof. split; [apply _ | done]. Qed.

#[global] Instance heap_frame_same_trace : heap_frame (same trace).
Proof. split; [apply _ | done]. Qed.

#[global] Instance app_frame_same_maps : app_frame (same maps).
Proof. split; [split; [apply _ | done] | done..]. Qed.

#[global] Instance app_frame_heap_grows : app_frame heap_grows.
Proof.
  split; [split; [apply _ |] | ..]; unfold heap_grows; simpl; intros; lia.
Qed.

#[global] Instance app_frame_same_state_calls : app_frame (same state_calls).
Proof.
  split; [split; [apply _ | done] | | done..].
  intros w evs H. unfold same, state_calls, add_trace; simpl.
  rewrite list.filter_app, (filter_app_events is_state evs), app_nil_r; [done| |done].
  by intros e [? ?].
Qed.

#[global] Instance app_frame_same_plugin_calls : app_frame (same plugin_calls).
Proof.
  split; [split; [apply _ | done] | | done..].
  intros w evs H. unfold same, plugin_calls, add_trace; simpl.
  rewrite list.filter_app, (filter_app_events is_plugin evs), app_nil_r; [done| |done].
  by intros e [? ?].
Qed.

Create HintDb respects.

Section heap_frame.
Context (R : World → World → Prop) `{!heap_frame R}.

Lemma alloc_respects o : respects R (alloc o).
Proof. intros w. apply (hf_heap w (heap w ++ [o])). rewrite length_app. lia. Qed.

Lemma read_respects l : respects R (read l).
Proof. intros w. simpl. reflexivity. Qed.

Lemma write_respects l o : respects R (write l o).
Proof. intros w. apply (hf_heap w (<[l:=o]> (heap w))). by rewrite length_insert. Qed.

Lemma get_store_respects s : respects R (get_store s).
Proof. intros w. simpl. reflexivity. Qed.

Hint Resolve alloc_respects read_respects write_respects get_store_respects
  : respects.

Ltac go := repeat (respects_step || (progress eauto with respects)).

Lemma materialize_fields_with_respects mat fs acc :
  Forall (λ kd, respects R (mat kd.2)) fs →
  respects R (materialize_fields_with mat fs acc).
Proof.
  intros H. revert acc. induction H as [|[k d] r Hd _ IH]; intros acc; simpl.
  - go.
  - apply respects_bind; [apply _ | apply Hd | intros v; apply IH].
Qed.

Lemma materialize_respects d : respects R (materialize d).
Proof.
  induction d as [n|s|fields IH] using data_ind; simpl; go.
  by apply materialize_fields_with_respects.
Qed.

Lemma materialize_fields_respects fs acc : respects R (materialize_fields fs acc).
Proof.
  apply materialize_fields_with_respects, Forall_forall.
  intros kd _. apply materialize_respects.
Qed.

Lemma clone_props_with_respects cl ps :
  (∀ l, respects R (cl l)) → respects R (clone_props_with cl ps).
Proof.
  intros Hcl. induction ps as [|[k x] r IH]; simpl; go.
  unfold clone_value_with. destruct x; go.
Qed.

Lemma clone_respects fuel l : respects R (clone fuel l).
Proof.
  revert l. induction fuel as [|fuel IH]; intros l; simpl; go.
  by apply clone_props_with_respects.
Qed.

Lemma structuredClone_respects l : respects R (structuredClone l).
Proof. intros w. apply clone_respects. Qed.

Lemma bindActionsToStoreInstance_respects actions storeInstance :
  respects R (bindActionsToStoreInstance actions storeInstance).
Proof. unfold bindActionsToStoreInstance. go. Qed.

Lemma proxy_get_respects l key : respects R (proxy_get l key).
Proof.
  intros w. unfold proxy_get. destruct (unref _ _ _); simpl; reflexivity.
Qed.

Lemma assignStateToStoreInstance_respects state storeInstance :
  respects R (assignStateToStoreInstance state storeInstance).
Proof. unfold assignStateToStoreInstance. go. apply proxy_get_respects. Qed.

Lemma bindGettersToStoreInstance_respects getters state storeInstance :
  respects R (bindGettersToStoreInstance getters state storeInstance).
Proof. unfold bindGettersToStoreInstance. go. Qed.

Lemma bindMethodsToStoreInstance_respects methods storeInstance :
  respects R (bindMethodsToStoreInstance methods storeInstance).
Proof. unfold bindMethodsToStoreInstance. go. Qed.
End heap_frame.

Section app_frame.
Context (R : World → World → Prop) `{!app_frame R}.

Lemma set_store_respects s st : respects R (set_store s st).
Proof. intros w. apply af_stores. Qed.

Lemma new_store_respects st : respects R (new_store st).
Proof. intros w. apply af_stores. Qed.

Lemma watch_respects source s : respects R (watch source s).
Proof. intros w. apply af_watchers. Qed.

Lemma stop_respects h : respects R (stop h).
Proof. intros w. apply af_watchers. Qed.

Lemma emit_log_respects v : respects R (emit (EvLog v)).
Proof. intros w. apply (af_trace w [EvLog v]). by apply Forall_singleton. Qed.

Lemma set_field_respects l key value : respects R (set_field l key value).
Proof.
  intros w. rewrite set_field_spec. simpl.
  etrans; [apply (hf_heap w); by rewrite length_insert|].
  destruct (obj_get _ _) as [old|]; [destruct (decide _); [reflexivity|]|];
    apply af_trace, deliveries_app_events.
Qed.

Lemma set_trap_respects fuel l key value : respects R (set_trap fuel l key value).
Proof.
  revert l key value. induction fuel as [|fuel IH]; intros l key value w; simpl;
    rewrite bind_unfold; simpl;
    destruct (toRaw <$> obj_get (default [] (heap w !! l)) key) as [[]|];
    try apply set_field_respects;
    destruct (isRef value);
    first [apply set_field_respects | apply IH | simpl; reflexivity].
Qed.

Lemma proxy_set_respects l key v : respects R (proxy_set l key v).
Proof. intros w. apply set_trap_respects. Qed.

Lemma proxy_delete_respects l key : respects R (proxy_delete l key).
Proof.
  intros w. rewrite proxy_delete_spec. simpl.
  etrans; [apply (hf_heap w); by rewrite length_insert|].
  destruct (obj_has _ _); [|reflexivity].
  apply af_trace, deliveries_app_events.
Qed.

Hint Resolve alloc_respects read_respects write_respects get_store_respects
  set_store_respects new_store_respects watch_respects stop_respects
  emit_log_respects proxy_set_respects proxy_delete_respects
  proxy_get_respects : respects.

Ltac go := repeat (respects_step || (progress eauto with typeclass_instances respects)).

Lemma reset_respects s : respects R (reset s).
Proof. unfold reset. go. Qed.

Lemma subscribe_respects s callback : respects R (subscribe s callback).
Proof. unfold subscribe. go. Qed.

Lemma unsubscribe_respects s callback : respects R (unsubscribe s callback).
Proof. unfold unsubscribe. go. Qed.

Lemma get_prop_respects base key : respects R (get_prop base key).
Proof. unfold get_prop. go. Qed.

Lemma set_prop_respects base key v : respects R (set_prop base key v).
Proof. unfold set_prop. go. Qed.

Lemma delete_prop_respects base key : respects R (delete_prop base key).
Proof. unfold delete_prop. go. Qed.

Hint Resolve reset_respects subscribe_respects unsubscribe_respects
  get_prop_respects set_prop_respects delete_prop_respects : respects.

Lemma call_respects f arg : respects R (call f arg).
Proof. unfold call. go. Qed.

Lemma run_respects p : respects R (run p).
Proof. induction p; simpl; go; auto using call_respects. Qed.

Lemma runPlugins_respects id options stavue storeInstance from ps :
  (∀ w e, is_plugin e = true → R w (add_trace w [e])) →
  respects R (runPlugins id options stavue storeInstance from ps).
Proof.
  intros Hplugin.
  unfold runPlugins. apply respects_forEach_from; [apply _|]. intros j plugin.
  repeat respects_step;
    try (first [apply alloc_respects | apply read_respects | apply run_respects];
         apply _).
  intros w. by apply Hplugin.
Qed.

Lemma call_state_respects id options :
  (∀ w e, R w (add_trace w [e])) → respects R (call_state id options).
Proof.
  intros Hemit w.
  unfold call_state. destruct (state options (trace w)) as [fields|e].
  - rewrite bind_unfold. simpl. fold (add_trace w [EvState id]).
    etrans; [apply Hemit|].
    assert (respects R (o ← materialize_fields fields []; alloc o)) as Hrest.
    { apply respects_bind; [apply _ | | intros o].
      - apply materialize_fields_respects; apply _.
      - apply alloc_respects; apply _. }
    apply Hrest.
  - rewrite bind_unfold. simpl. apply Hemit.
Qed.

(** Assembly changes what it may only as application code does, apart from
    the events it records. *)
Lemma setupStore_respects id options stavue :
  (∀ w e, R w (add_trace w [e])) → respects R (setupStore id options stavue).
Proof.
  intros Hemit.
  unfold setupStore, assemble.
  repeat respects_step;
    try first [ apply alloc_respects | apply structuredClone_respects
              | apply new_store_respects
              | apply bindActionsToStoreInstance_respects
              | apply assignStateToStoreInstance_respects
              | apply bindGettersToStoreInstance_respects
              | apply bindMethodsToStoreInstance_respects
              | by apply call_state_respects ];
    try apply _.
  apply runPlugins_respects. intros w e _. apply Hemit.
Qed.
End app_frame.

(** ** The registry: [useStore] *)

Lemma respects_bind2 (R1 R2 R3 : World → World → Prop) {A B} (m : M A) (f : A → M B) :
  respects R1 m → (∀ a, respects R2 (f a)) →
  (∀ x y, R1 x y → R3 x y) →
  (∀ x y z, R1 x y → R2 y z → R3 x z) →
  respects R3 (m ≫= f).
Proof.
  intros Hm Hf Herr Hseq w. rewrite bind_unfold. specialize (Hm w).
  destruct (m w) as [[a|e] w']; simpl in *; [|by apply Herr].
  eapply Hseq; [apply Hm | apply Hf].
Qed.

Lemma call_state_one_call id options : respects (one_state_call id) (call_state id options).
Proof.
  intros w. unfold call_state.
  assert (one_state_call id w (add_trace w [EvState id])) as Hemit.
  { unfold one_state_call, state_calls, add_trace; simpl.
    by rewrite list.filter_app. }
  destruct (state options (trace w)) as [fields|e].
  - rewrite bind_unfold. simpl. fold (add_trace w [EvState id]).
    unfold one_state_call in *. rewrite <- Hemit.
    assert (respects (same state_calls)
              (o ← materialize_fields fields []; alloc o)) as Hrest.
    { apply respects_bind; [apply _ | | intros o].
      - apply materialize_fields_respects; apply _.
      - apply alloc_respects; apply _. }
    apply Hrest.
  - rewrite bind_unfold. simpl. apply Hemit.
Qed.

Lemma assemble_one_state_call id options :
  respects (one_state_call id) (assemble id options).
Proof.
  intros w. unfold assemble. rewrite bind_unfold. simpl.
  set (w1 := mkWorld _ _ _ _ _).
  match goal with
  | |- context [(?m ≫= ?f) w1] =>
      assert (respects (one_state_call id) (m ≫= f)) as Hrest
  end; [|apply (Hrest w1)].
  apply (respects_bind2 (one_state_call id) (same state_calls) (one_state_call id));
    [apply call_state_one_call | | done | ].
  - intros initialState.
    repeat respects_step;
      first [ apply structuredClone_respects | apply new_store_respects
            | apply bindActionsToStoreInstance_respects
            | apply assignStateToStoreInstance_respects
            | apply bindGettersToStoreInstance_respects
            | apply bindMethodsToStoreInstance_respects ]; apply _.
  - unfold one_state_call, same. intros x y z H1 H2. congruence.
Qed.

Lemma setupStore_one_state_call id options stavue :
  respects (one_state_call id) (setupStore id options stavue).
Proof.
  unfold setupStore.
  apply (respects_bind2 (one_state_call id) (same state_calls) (one_state_call id));
    [apply assemble_one_state_call | | done | ].
  - intros [storeInstance s].
    repeat respects_step.
    apply runPlugins_respects; [apply _|].
    intros w e He. unfold same, state_calls, add_trace; simpl.
    rewrite list.filter_app. destruct e; try done. simpl. by rewrite app_nil_r.
  - unfold one_state_call, same. intros x y z H1 H2. congruence.
Qed.

Lemma setupStore_same_maps id options stavue :
  respects (same maps) (setupStore id options stavue).
Proof. apply setupStore_respects; [apply _ | done]. Qed.

(** A call that finds the identifier registered returns the registered
    instance and changes nothing. *)
Lemma useStore_cached id options stavue w inst :
  registered stavue id w = Some inst →
  defineStore id options (Some stavue) w = (Ok (VObj inst), w).
Proof.
  unfold registered. intros H. unfold defineStore.
  rewrite !bind_unfold. simpl. rewrite H. simpl.
  rewrite bind_unfold. simpl. unfold map_get. by rewrite H.
Qed.

(** A call that finds nothing registered assembles and registers. *)
Lemma useStore_fresh id options stavue w :
  registered stavue id w = None →
  defineStore id options (Some stavue) w =
  match setupStore id options stavue w with
  | (Ok store, w1) =>
      (map_set (activeStores stavue) id store;; map_get (activeStores stavue) id) w1
  | (Err e, w1) => (Err e, w1)
  end.
Proof.
  unfold registered. intros H. unfold defineStore.
  rewrite !bind_unfold. simpl. rewrite H.
  rewrite bool_decide_eq_false_2 by (by intros [? ?]).
  rewrite !bind_unfold.
  destruct (setupStore id options stavue w) as [[store|e] w1]; done.
Qed.

Lemma map_set_registered stavue id store w :
  activeStores stavue < length (maps w) →
  registered stavue id (map_set (activeStores stavue) id store w).2 = Some store.
Proof.
  intros H. unfold registered, map_set, the_map. simpl.
  rewrite list_lookup_insert_eq by done. simpl. apply lookup_insert_eq.
Qed.

Lemma useStore_registers id options stavue w v w' :
  activeStores stavue < length (maps w) →
  defineStore id options (Some stavue) w = (Ok v, w') →
  ∃ inst, v = VObj inst ∧ registered stavue id w' = Some inst.
Proof.
  intros Hm H.
  destruct (registered stavue id w) as [inst|] eqn:Hreg.
  - rewrite (useStore_cached _ _ _ _ inst) in H by done.
    injection H as <- <-. eauto.
  - rewrite useStore_fresh in H by done.
    pose proof (setupStore_same_maps id options stavue w) as Hmaps.
    destruct (setupStore id options stavue w) as [[store|e] w1]; [|done].
    unfold same in Hmaps; simpl in Hmaps.
    rewrite bind_unfold in H. simpl in H.
    assert (activeStores stavue < length (maps w1)) as Hm1 by (by rewrite Hmaps).
    pose proof (map_set_registered stavue id store w1 Hm1) as Hreg1.
    unfold map_get in H. simpl in Hreg1. unfold registered in Hreg1.
    rewrite Hreg1 in H. injection H as <- <-. eauto.
Qed.

Lemma repeat_useStore_cached id options stavue inst w n :
  registered stavue id w = Some inst →
  repeat_useStore (defineStore id options) stavue n (VObj inst) w
  = (Ok (VObj inst), w).
Proof.
  intros H. induction n as [|n IH]; cbn [repeat_useStore]; [done|].
  rewrite bind_unfold, (useStore_cached _ _ _ _ inst) by done. apply IH.
Qed.

Lemma useStore_calls_state_once id options stavue w v w' :
  registered stavue id w = None →
  defineStore id options (Some stavue) w = (Ok v, w') →
  state_calls w' = state_calls w ++ [EvState id].
Proof.
  intros Hnone H. rewrite useStore_fresh in H by done.
  pose proof (setupStore_one_state_call id options stavue w) as Hcall.
  destruct (setupStore id options stavue w) as [[store|e] w1]; [|done].
  rewrite bind_unfold in H. simpl in H. injection H as _ <-. apply Hcall.
Qed.

(** C1: once [useStore] has returned an instance for an identifier on a
    registry, every further call on that registry returns the very same
    object and leaves the whole world as it is: no state factory call, no
    plugin run, no object allocated; and the first call that found nothing
    registered called the state factory exactly once. *)
Theorem useStore_singleton id options stavue w v w' :
  activeStores stavue < length (maps w) →
  defineStore id options (Some stavue) w = (Ok v, w') →
  (∃ inst, v = VObj inst ∧ registered stavue id w' = Some inst) ∧
  (∀ n, repeat_useStore (defineStore id options) stavue n v w' = (Ok v, w')) ∧
  (registered stavue id w = None →
   state_calls w' = state_calls w ++ [EvState id]).
Proof.
  intros Hm H.
  destruct (useStore_registers _ _ _ _ _ _ Hm H) as (inst & -> & Hreg).
  split; [eauto|]. split.
  - intros n. by apply repeat_useStore_cached.
  - intros Hnone. by eapply useStore_calls_state_once.
Qed.

Lemma useStore_singleton_witness :
  registered plain_stavue "counter" counter_world = Some 1 ∧
  repeat_useStore (defineStore "counter" counter_options) plain_stavue 3
    (VObj 1) counter_world = (Ok (VObj 1), counter_world) ∧
  state_calls counter_world = state_calls plain_world ++ [EvState "counter"].
Proof.
  assert (activeStores plain_stavue < length (maps plain_world)) as Hm
    by (vm_compute; lia).
  assert (defineStore "counter" counter_options (Some plain_stavue) plain_world
          = (Ok (VObj 1), counter_world)) as H by (vm_compute; reflexivity).
  destruct (useStore_singleton _ _ _ _ _ _ Hm H) as ((inst & Hinst & Hreg) & Hn & Hcalls).
  injection Hinst as <-.
  split; [exact Hreg|]. split; [exact (Hn 3)|]. apply Hcalls. reflexivity.
Defined.

(** ** [structuredClone] of a fresh literal succeeds *)

#[global] Instance heap_extends_preorder : PreOrder heap_extends.
Proof.
  split; [intros x; unfold heap_extends; done |].
  intros x y z H1 H2. unfold heap_extends in *. by etrans.
Qed.

Lemma plain_data_mono h h' n n' v :
  h `prefix_of` h' → n ≤ n' → plain_data h n v → plain_data h' n' v.
Proof.
  intros Hh. revert n' v. induction n as [|n IH]; intros n' v Hn Hv.
  - destruct v; try done; by destruct n'.
  - destruct v; try done; try (by destruct n').
    destruct n' as [|n']; [lia|]. simpl in *.
    destruct Hv as (o & Ho & Hall). exists o. split.
    + by eapply prefix_lookup_Some.
    + eapply Forall_impl; [apply Hall|]. intros kv Hkv. apply IH; [lia | done].
Qed.

Lemma plain_data_num h n z : plain_data h n (VNum z).
Proof. by destruct n. Qed.

Lemma plain_data_str h n s : plain_data h n (VStr s).
Proof. by destruct n. Qed.

Lemma obj_set_Forall (P : string * value → Prop) o key v :
  Forall P o → P (key, v) → Forall P (obj_set o key v).
Proof.
  intros Ho Hv. induction Ho as [|[k x] r Hx Hr IH]; simpl.
  - by apply Forall_singleton.
  - destruct (decide (k = key)) as [->|]; by apply Forall_cons.
Qed.

Lemma alloc_extends o w : heap_extends w (alloc o w).2.
Proof. unfold heap_extends. simpl. by apply prefix_app_r. Qed.

Lemma clone_props_ok cl n ps w0 w :
  (∀ l w1, heap_extends w0 w1 → plain_data (heap w1) n (VObj l) →
           ∃ l' w', cl l w1 = (Ok l', w') ∧ heap_extends w1 w') →
  heap_extends w0 w →
  Forall (λ kv, plain_data (heap w0) n kv.2) ps →
  ∃ ps' w', clone_props_with cl ps w = (Ok ps', w') ∧ heap_extends w w'.
Proof.
  intros Hcl Hw Hps. revert w Hw.
  induction Hps as [|[k x] r Hx _ IH]; intros w Hw; simpl.
  - eexists _, _. split; [done | reflexivity].
  - assert (∃ x' w1, clone_value_with cl x w = (Ok x', w1) ∧ heap_extends w w1)
      as (x' & w1 & Hx' & Hw1).
    { destruct x; simpl in Hx; try (by destruct n);
        try (eexists _, _; split; [done | reflexivity]).

      destruct (Hcl l w Hw) as (l' & w1 & Hl' & Hw1).
      { eapply plain_data_mono; [apply Hw | done | done]. }
      exists (VObj l'), w1. split; [|done].
      unfold clone_value_with. by rewrite (bind_ok _ _ _ _ _ Hl'). }
    rewrite (bind_ok _ _ _ _ _ Hx').
    destruct (IH w1) as (r' & w2 & Hr' & Hw2); [by etrans|].
    rewrite (bind_ok _ _ _ _ _ Hr'). eexists _, _. split; [done | by etrans].
Qed.

Lemma clone_ok fuel l w n :
  plain_data (heap w) n (VObj l) → n ≤ fuel →
  ∃ l' w', clone fuel l w = (Ok l', w') ∧ heap_extends w w' ∧
           length (heap w) ≤ l' < length (heap w').
Proof.
  revert l w n. induction fuel as [|fuel IH]; intros l w n Hl Hn.
  - destruct n; [done | lia].
  - destruct n as [|n]; [done|]. simpl in Hl. destruct Hl as (o & Ho & Hall).
    simpl. rewrite bind_unfold. simpl. rewrite Ho. simpl.
    destruct (clone_props_ok (clone fuel) n o w w) as (o' & w1 & Ho' & Hw1);
      [ | reflexivity | done | ].
    { intros l1 w1 _ Hl1.
      destruct (IH l1 w1 n) as (l' & w' & ? & ? & _); [done | lia | eauto]. }
    rewrite (bind_ok _ _ _ _ _ Ho').
    eexists _, _. split; [done|].
    pose proof (prefix_length _ _ Hw1) as Hlen.
    split; [etrans; [apply Hw1 | apply alloc_extends]|].
    simpl. rewrite length_app. simpl. lia.
Qed.

Lemma materialize_fields_with_ok mat fs :
  Forall (λ kd, ∀ w, ∃ v w', mat kd.2 w = (Ok v, w') ∧ heap_extends w w' ∧
                plain_data (heap w') (length (heap w') - length (heap w)) v) fs →
  ∀ b acc w,
    b ≤ length (heap w) →
    Forall (λ kv, plain_data (heap w) (length (heap w) - b) kv.2) acc →
    ∃ o w', materialize_fields_with mat fs acc w = (Ok o, w') ∧
            heap_extends w w' ∧
            Forall (λ kv, plain_data (heap w') (length (heap w') - b) kv.2) o.
Proof.
  induction 1 as [|[k d] r Hd _ IH]; intros b acc w Hb Hacc; simpl.
  - eexists _, _. split; [done|]. split; [reflexivity | done].
  - destruct (Hd w) as (v & w1 & Hv & Hw1 & Hpd). simpl in Hv.
    rewrite (bind_ok _ _ _ _ _ Hv).
    pose proof (prefix_length _ _ Hw1) as Hlen.
    destruct (IH b (obj_set acc k v) w1) as (o & w2 & Ho & Hw2 & Hall); [lia| |].
    { apply obj_set_Forall.
      - eapply Forall_impl; [apply Hacc|]. intros kv Hkv.
        eapply plain_data_mono; [apply Hw1 | | apply Hkv]. lia.
      - simpl. eapply plain_data_mono; [reflexivity | | apply Hpd]. lia. }
    exists o, w2. split; [done|]. split; [by etrans | done].
Qed.

Lemma materialize_ok d w :
  ∃ v w', materialize d w = (Ok v, w') ∧ heap_extends w w' ∧
          plain_data (heap w') (length (heap w') - length (heap w)) v.
Proof.
  revert w. induction d as [n|s|fields IH] using data_ind; intros w.
  - eexists _, _. split; [done|]. split; [reflexivity | apply plain_data_num].
  - eexists _, _. split; [done|]. split; [reflexivity | apply plain_data_str].
  - simpl.
    destruct (materialize_fields_with_ok materialize fields IH (length (heap w)) [] w)
      as (o & w1 & Ho & Hw1 & Hall); [lia | constructor |].
    rewrite (bind_ok _ _ _ _ _ Ho). rewrite bind_unfold. simpl.
    eexists _, _. split; [done|].
    pose proof (prefix_length _ _ Hw1) as Hlen.
    split.
    + etrans; [apply Hw1 | apply alloc_extends].
    + simpl. rewrite length_app. simpl.
      replace (length (heap w1) + 1 - length (heap w))
        with (S (length (heap w1) - length (heap w))) by lia.
      exists o. split.
      * by apply list_lookup_middle.
      * eapply Forall_impl; [apply Hall|]. intros kv Hkv.
        eapply plain_data_mono; [ | | apply Hkv]; [by apply prefix_app_r | lia].
Qed.

Lemma materialize_fields_ok fs w :
  ∃ o w', materialize_fields fs [] w = (Ok o, w') ∧ heap_extends w w' ∧
          Forall (λ kv, plain_data (heap w') (length (heap w') - length (heap w)) kv.2) o.
Proof.
  apply (materialize_fields_with_ok materialize fs); [|lia|constructor].
  apply Forall_forall. intros kd _ w'. apply materialize_ok.
Qed.

(** When the factory returns, its literal is allocated and cloned: two new
    objects, the heap otherwise as it was, one event recorded. *)
Lemma plain_data_no_ref h n v : plain_data h n v → isRef v = false.
Proof. by destruct v, n. Qed.

Lemma call_state_clone_ok id options fields w :
  state options (trace w) = Ok fields →
  ∃ initialState w1 defaultState w2,
    call_state id options w = (Ok initialState, w1) ∧
    structuredClone initialState w1 = (Ok defaultState, w2) ∧
    length (heap w) ≤ initialState ∧ initialState < defaultState ∧
    defaultState < length (heap w2) ∧
    heap_extends w w2 ∧ the_obj w2 initialState = the_obj w1 initialState ∧
    maps w2 = maps w ∧ stores w2 = stores w ∧ watchers w2 = watchers w ∧
    trace w2 = trace w ++ [EvState id] ∧
    holds_no_ref (the_obj w1 initialState).
Proof.
  intros Hst. unfold call_state. rewrite Hst.
  rewrite bind_unfold. simpl. fold (add_trace w [EvState id]).
  set (we := add_trace w [EvState id]).
  destruct (materialize_fields_ok fields we) as (o & w1 & Ho & Hw1 & Hall).
  rewrite (bind_ok _ _ _ _ _ Ho). simpl.
  pose proof (prefix_length _ _ Hw1) as Hlen. simpl in Hlen.
  destruct (clone_ok (length (heap w1 ++ [o])) (length (heap w1)) (alloc o w1).2
              (S (length (heap w1) - length (heap w))))
    as (d & w2 & Hd & Hw2 & Hdlen).
  - simpl. exists o. split; [by apply list_lookup_middle|].
    eapply Forall_impl; [apply Hall|]. intros kv Hkv.
    eapply plain_data_mono; [ | | apply Hkv]; [by apply prefix_app_r | done].
  - rewrite length_app. simpl. lia.
  - simpl in Hdlen. rewrite length_app in Hdlen. simpl in Hdlen.
    exists (length (heap w1)), (alloc o w1).2, d, w2.
    split; [done|]. split; [apply Hd|].
    assert (∀ {X} (f : World → X), heap_frame (same f) →
              (∀ w e, f (add_trace w [e]) = f w) → f w2 = f w) as Hsame.
    { intros X f Hf Hemit.
      pose proof (clone_respects (same f) (length (heap w1 ++ [o]))
                    (length (heap w1)) (alloc o w1).2) as H2.
      pose proof (alloc_respects (same f) o w1) as H1.
      pose proof (materialize_fields_respects (same f) fields [] we) as H0.
      rewrite Hd in H2. rewrite Ho in H0. unfold same in *. simpl in *.
      rewrite H2, H1, H0. apply Hemit. }
    repeat split; try lia.
    + unfold heap_extends in *. simpl in *.
      etrans; [apply Hw1|]. etrans; [|apply Hw2]. by apply prefix_app_r.
    + unfold heap_extends in Hw2.
      assert (heap (alloc o w1).2 !! length (heap w1) = Some o) as Hl
        by (by apply list_lookup_middle).
      pose proof (prefix_lookup_Some _ _ _ _ Hl Hw2) as Hl2.
      unfold the_obj. rewrite Hl2. simpl in *. by rewrite Hl.
    + apply (Hsame _ maps); [apply _ | done].
    + apply (Hsame _ stores); [apply _ | done].
    + apply (Hsame _ watchers); [apply _ | done].
    + pose proof (clone_respects (same trace) (length (heap w1 ++ [o]))
                    (length (heap w1)) (alloc o w1).2) as H2.
      pose proof (materialize_fields_respects (same trace) fields [] we) as H0.
      rewrite Hd in H2. rewrite Ho in H0. unfold same in *. simpl in *.
      by rewrite H2, H0.
    + unfold the_obj. simpl. rewrite list_lookup_middle by done. simpl.
      eapply Forall_impl; [apply Hall|]. intros kv Hkv.
      eapply plain_data_no_ref. apply Hkv.
Qed.

(** ** The wiring of an instance in closed form *)

Lemma alloc_eq o w :
  alloc o w = (Ok (length (heap w)), set_heap w (heap w ++ [o])).
Proof. reflexivity. Qed.

Lemma bind_inv_ok {A B} (m : M A) (f : A → M B) w b w' :
  (m ≫= f) w = (Ok b, w') →
  ∃ a w1, m w = (Ok a, w1) ∧ f a w1 = (Ok b, w').
Proof.
  rewrite bind_unfold. destruct (m w) as [[a|e] w1]; [eauto | done].
Qed.

Lemma set_heap_id w : set_heap w (heap w) = w.
Proof. by destruct w. Qed.

Lemma insert_the_obj w l : <[l := the_obj w l]> (heap w) = heap w.
Proof.
  unfold the_obj. destruct (heap w !! l) as [o|] eqn:H; simpl.
  - by apply list_insert_id.
  - apply list_insert_ge. by apply lookup_ge_None.
Qed.

Lemma the_obj_set_heap_insert w l o :
  l < length (heap w) → the_obj (set_heap w (<[l := o]> (heap w))) l = o.
Proof. intros H. unfold the_obj. simpl. by rewrite list_lookup_insert_eq. Qed.

(** A loop of writes to one object is one write of the folded object. *)
Lemma forEach_write_at {A} (l : loc) (g : obj → A → obj) (f : A → M unit) xs w :
  (∀ x o, f x (set_heap w (<[l := o]> (heap w)))
          = (Ok (), set_heap w (<[l := g o x]> (heap w)))) →
  forEach f xs w
  = (Ok (), set_heap w (<[l := foldl g (the_obj w l) xs]> (heap w))).
Proof.
  intros Hf.
  assert (∀ o, forEach f xs (set_heap w (<[l := o]> (heap w)))
               = (Ok (), set_heap w (<[l := foldl g o xs]> (heap w)))) as H.
  { induction xs as [|x xs IH]; intros o; simpl; [done|].
    by rewrite (bind_ok _ _ _ _ _ (Hf x o)), IH. }
  specialize (H (the_obj w l)). by rewrite insert_the_obj, set_heap_id in H.
Qed.

Lemma forEach_write {A} (l : loc) (g : obj → A → obj) (f : A → M unit) xs w :
  (∀ x w, f x w = (Ok (), set_heap w (<[l := g (the_obj w l) x]> (heap w)))) →
  forEach f xs w
  = (Ok (), set_heap w (<[l := foldl g (the_obj w l) xs]> (heap w))).
Proof.
  intros Hf. revert w. induction xs as [|x xs IH]; intros w; simpl.
  - by rewrite insert_the_obj, set_heap_id.
  - rewrite (bind_ok _ _ _ _ _ (Hf x w)), IH. f_equal.
    destruct (decide (l < length (heap w))) as [Hl|Hl].
    + rewrite the_obj_set_heap_insert by done. unfold set_heap; simpl.
      by rewrite list_insert_insert_eq.
    + unfold set_heap; simpl.
      by rewrite !list_insert_ge by (rewrite ?length_insert; lia).
Qed.

Lemma bindActionsToStoreInstance_spec actions storeInstance w :
  bindActionsToStoreInstance actions storeInstance w =
  (Ok (), set_heap w (<[storeInstance :=
     foldl (λ o '(actionName, f), obj_set o actionName (VBound f storeInstance))
           (the_obj w storeInstance) actions]> (heap w))).
Proof.
  unfold bindActionsToStoreInstance. apply forEach_write. by intros [k f] w'.
Qed.

Lemma bindGettersToStoreInstance_spec getters state storeInstance w :
  bindGettersToStoreInstance getters state storeInstance w =
  (Ok (), set_heap w (<[storeInstance :=
     foldl (λ o '(getterName, getter),
              obj_set o getterName (VComputed getter storeInstance state))
           (the_obj w storeInstance) getters]> (heap w))).
Proof.
  unfold bindGettersToStoreInstance. apply forEach_write. by intros [k f] w'.
Qed.

Lemma bindMethodsToStoreInstance_spec methods storeInstance w :
  bindMethodsToStoreInstance methods storeInstance w =
  (Ok (), set_heap w (<[storeInstance :=
     foldl (λ o '(methodName, method), obj_set o methodName method)
           (the_obj w storeInstance) methods]> (heap w))).
Proof.
  unfold bindMethodsToStoreInstance. apply forEach_write. by intros [k f] w'.
Qed.

Lemma foldl_pointwise {A B} (f g : A → B → A) l a :
  (∀ a x, f a x = g a x) → foldl f a l = foldl g a l.
Proof.
  intros H. revert a. induction l as [|x l IH]; intros a; simpl; [done|].
  by rewrite H, IH.
Qed.

Lemma read_eq l w : read l w = (Ok (the_obj w l), w).
Proof. reflexivity. Qed.

Lemma holds_no_ref_field w l key :
  holds_no_ref (the_obj w l) → isRef (field (heap w) l key) = false.
Proof.
  unfold holds_no_ref, field, the_obj. generalize (default [] (heap w !! l)).
  intros o Ho. induction Ho as [|[k v] o Hv _ IH]; simpl; [done|].
  by destruct (decide (k = key)).
Qed.

(** Copying a state that holds no ref: the mirrors of the first
    [Object.assign] are what its proxy gives, the second puts a handle in
    the place of each. *)
Lemma assignStateToStoreInstance_spec state storeInstance w :
  storeInstance ≠ state →
  storeInstance < length (heap w) →
  holds_no_ref (the_obj w state) →
  assignStateToStoreInstance state storeInstance w =
  (Ok (), set_heap w (<[storeInstance :=
     foldl (λ o '(key, _), obj_set o key (VRef state key))
       (foldl (λ o '(key, _),
                 obj_set o key (toReactive (field (heap w) state key)))
              (the_obj w storeInstance) (the_obj w state))
       (the_obj w state)]> (heap w))).
Proof.
  intros Hne Hlt Href. unfold assignStateToStoreInstance.
  rewrite (bind_ok _ _ _ _ _ (read_eq _ _)).
  assert (∀ o, field (<[storeInstance := o]> (heap w)) state
               = field (heap w) state) as Hfield.
  { intros o. unfold field. by rewrite list_lookup_insert_ne. }
  erewrite bind_ok; cycle 1.
  { apply (forEach_write_at storeInstance
             (λ o key, obj_set o key (toReactive (field (heap w) state key)))).
    intros key o. rewrite bind_unfold.
    rewrite proxy_get_spec; cbn [heap set_heap]; rewrite Hfield;
      [|by apply holds_no_ref_field].
    rewrite bind_unfold. simpl.
    rewrite list_lookup_insert_eq by done. simpl.
    unfold write, set_heap. simpl. by rewrite list_insert_insert_eq. }
  erewrite (forEach_write storeInstance
              (λ o key, obj_set o key (VRef state key))); [|done].
  f_equal. rewrite the_obj_set_heap_insert by done.
  unfold set_heap; simpl. rewrite list_insert_insert_eq.
  unfold obj_keys. rewrite !foldl_fmap. do 2 f_equal.
  rewrite (foldl_pointwise (λ a b, obj_set a b.1 (VRef state b.1))
             (λ o '(key, _), obj_set o key (VRef state key)))
    by (by intros o [k v]).
  f_equal. apply foldl_pointwise. by intros o [k v].
Qed.

(** The four wiring steps on an empty instance, given the state object. *)
Lemma wiring_spec {B} options storeInstance state s (k : M B) w :
  storeInstance < length (heap w) →
  storeInstance ≠ state →
  the_obj w storeInstance = [] →
  holds_no_ref (the_obj w state) →
  (bindActionsToStoreInstance (default [] (actions options)) storeInstance;;
   assignStateToStoreInstance state storeInstance;;
   bindGettersToStoreInstance (default [] (getters options)) state storeInstance;;
   bindMethodsToStoreInstance (_methods s) storeInstance;;
   k) w
  = k (set_heap w (<[storeInstance :=
         wired storeInstance state (the_obj w state) options s]> (heap w))).
Proof.
  intros Hlt Hne Hempty Href.
  assert (∀ w' o, the_obj (set_heap w' (<[storeInstance := o]> (heap w'))) state
                  = the_obj w' state) as Hstate.
  { intros w' o. unfold the_obj. simpl. by rewrite list_lookup_insert_ne. }
  rewrite (bind_ok _ _ _ _ _ (bindActionsToStoreInstance_spec _ _ _)).
  erewrite bind_ok; cycle 1.
  { apply assignStateToStoreInstance_spec; [done | |].
    - simpl. by rewrite length_insert.
    - by rewrite Hstate. }
  rewrite (bind_ok _ _ _ _ _ (bindGettersToStoreInstance_spec _ _ _ _)).
  rewrite (bind_ok _ _ _ _ _ (bindMethodsToStoreInstance_spec _ _ _)).
  f_equal.
  rewrite !Hstate.
  rewrite !the_obj_set_heap_insert by (simpl; rewrite ?length_insert; done).
  unfold set_heap; simpl. rewrite !list_insert_insert_eq.
  assert (∀ o, field (<[storeInstance := o]> (heap w)) state
               = field (heap w) state) as Hfield.
  { intros o. unfold field. by rewrite list_lookup_insert_ne. }
  rewrite Hfield, Hempty. done.
Qed.

Lemma assemble_state_ok id options w r w' :
  assemble id options w = (Ok r, w') →
  ∃ fields, state options (trace w) = Ok fields.
Proof.
  unfold assemble. rewrite (bind_ok _ _ _ _ _ (alloc_eq _ _)). intros H.
  apply bind_inv_ok in H. destruct H as (init & w1 & Hcs & _).
  unfold call_state in Hcs. simpl in Hcs.
  destruct (state options (trace w)) as [fields|e]; [eauto|].
  rewrite bind_unfold in Hcs. simpl in Hcs. done.
Qed.

(** Assembly in closed form: the instance is the first new object, wired
    from the state object; the closure is new, without subscription or
    watcher; the state and its snapshot are two further new objects. *)
Lemma assemble_spec id options fields w :
  state options (trace w) = Ok fields →
  ∃ initialState defaultState wc,
    assemble id options w =
    (Ok (length (heap w), length (stores w)),
     mkWorld (<[length (heap w) :=
                  wired (length (heap w)) initialState (the_obj wc initialState)
                        options (length (stores w))]> (heap wc))
             (maps w)
             (stores w ++ [mkStore id defaultState initialState [] None])
             (watchers w)
             (trace w ++ [EvState id])) ∧
    length (heap w) < initialState ∧ initialState < defaultState ∧
    defaultState < length (heap wc) ∧
    (heap w ++ [[]]) `prefix_of` heap wc ∧
    holds_no_ref (the_obj wc initialState).
Proof.
  intros Hst. unfold assemble.
  rewrite (bind_ok _ _ _ _ _ (alloc_eq _ _)).
  destruct (call_state_clone_ok id options fields (set_heap w (heap w ++ [[]])) Hst)
    as (init & w1 & d & w2 & Hcs & Hcl & Hinit & Hd & Hdlen & Hext & Hsame
        & Hmaps & Hstores & Hwatchers & Htrace & Href).
  simpl in *. rewrite length_app in Hinit. simpl in Hinit.
  rewrite (bind_ok _ _ _ _ _ Hcs), (bind_ok _ _ _ _ _ Hcl).
  exists init, d, w2.
  unfold heap_extends in Hext. simpl in Hext.
  pose proof (prefix_length _ _ Hext) as Hlen. rewrite length_app in Hlen.
  simpl in Hlen.
  assert (heap w2 !! length (heap w) = Some []) as Hinst.
  { eapply prefix_lookup_Some; [|apply Hext]. by apply list_lookup_middle. }
  rewrite <- Hsame in Href.
  split; [|repeat split; try lia; done].
  rewrite bind_unfold. unfold new_store at 1. cbn [fst snd].
  rewrite wiring_spec.
  - simpl. rewrite Hmaps, Hstores, Hwatchers, Htrace. done.
  - simpl. lia.
  - lia.
  - unfold the_obj. simpl. by rewrite Hinst.
  - done.
Qed.


(** The instance that assembly returns is the object it allocates first. *)
Lemma assemble_instance id options w storeInstance s w' :
  assemble id options w = (Ok (storeInstance, s), w') →
  storeInstance = length (heap w).
Proof.
  intros H. destruct (assemble_state_ok _ _ _ _ _ H) as [fields Hst].
  destruct (assemble_spec id options fields w Hst) as (? & ? & ? & Hspec & _).
  rewrite Hspec in H. by injection H as <- _ _.
Qed.

Lemma setupStore_inv id options stavue w storeInstance w' :
  setupStore id options stavue w = (Ok storeInstance, w') →
  ∃ s w1, assemble id options w = (Ok (storeInstance, s), w1) ∧
          runPlugins id options stavue storeInstance 0 (plugins stavue) w1
          = (Ok (), w').
Proof.
  unfold setupStore. intros H.
  apply bind_inv_ok in H. destruct H as ([inst s] & w1 & Ha & H).
  apply bind_inv_ok in H. destruct H as ([] & w2 & Hr & H).
  injection H as <- <-. eauto.
Qed.

(** When the state factory throws, assembly throws the same exception. *)
Lemma setupStore_state_throws id options stavue e w :
  state options (trace w) = Err e →
  (setupStore id options stavue w).1 = Err e.
Proof.
  intros Hst. unfold setupStore, assemble.
  rewrite bind_unfold, (bind_ok _ _ _ _ _ (alloc_eq _ _)), bind_unfold.
  unfold call_state at 1. simpl. rewrite Hst. done.
Qed.

(** ** Which assignment a property of the instance comes from *)

Lemma obj_get_obj_set o k v key :
  obj_get (obj_set o k v) key = if decide (k = key) then Some v else obj_get o key.
Proof.
  induction o as [|[k' x] r IH]; simpl.
  - done.
  - destruct (decide (k' = k)) as [->|Hne]; simpl.
    + by destruct (decide (k = key)).
    + rewrite IH. destruct (decide (k' = key)) as [->|]; [|done].
      by rewrite decide_False.
Qed.

Lemma obj_get_foldl_set {A} (g : string → A → value) (l : list (string * A)) o key :
  obj_get (foldl (λ o '(k, a), obj_set o k (g k a)) o l) key =
  match last_binding l key with
  | Some a => Some (g key a)
  | None => obj_get o key
  end.
Proof.
  revert o. induction l as [|[k a] r IH]; intros o; simpl; [done|].
  rewrite IH. destruct (last_binding r key) as [b|]; [done|].
  rewrite obj_get_obj_set. by destruct (decide (k = key)) as [->|].
Qed.

Lemma last_binding_obj_has (o : obj) key :
  match last_binding o key with Some _ => true | None => false end = obj_has o key.
Proof.
  unfold obj_has. induction o as [|[k v] r IH]; simpl; [done|].
  destruct (decide (k = key)) as [->|].
  - by destruct (last_binding r key).
  - destruct (last_binding r key); [|done]. by rewrite <- IH.
Qed.

(** The property of a wired instance under a name: the built-in method, or
    else the getter, or else the handle of the state field, or else the
    action. *)
Lemma wired_get storeInstance state stateObj options s name :
  obj_get (wired storeInstance state stateObj options s) name =
  match last_binding (_methods s) name with
  | Some method => Some method
  | None =>
      match last_binding (default [] (getters options)) name with
      | Some getter => Some (VComputed getter storeInstance state)
      | None =>
          if obj_has stateObj name then Some (VRef state name)
          else (λ f, VBound f storeInstance)
                 <$> last_binding (default [] (actions options)) name
      end
  end.
Proof.
  unfold wired.
  rewrite (obj_get_foldl_set (λ _ m, m)).
  destruct (last_binding (_methods s) name) as [m|]; [done|].
  rewrite (obj_get_foldl_set (λ _ getter, VComputed getter storeInstance state)).
  destruct (last_binding (default [] (getters options)) name) as [g|]; [done|].
  rewrite (obj_get_foldl_set (λ key _, VRef state key)).
  rewrite <- last_binding_obj_has.
  destruct (last_binding stateObj name) as [v|] eqn:Hv; [done|].
  rewrite (obj_get_foldl_set
             (λ key (_ : value),
                toReactive (default VUndefined (obj_get stateObj key)))), Hv.
  rewrite (obj_get_foldl_set (λ _ f, VBound f storeInstance)).
  by destruct (last_binding (default [] (actions options)) name).
Qed.

(** C10: the property of the assembled instance under a name is the one
    assigned last in the order actions, state mirrors, state handles,
    getters, built-in methods: a built-in method if the name is [$reset] or
    [$subscribe], else the computed getter of that name if there is one, else
    the handle of the state field of that name if there is one, else the
    bound action of that name. *)
Theorem assembled_property_precedence id options w storeInstance s w' name :
  assemble id options w = (Ok (storeInstance, s), w') →
  ∃ st, stores w' !! s = Some st ∧
    obj_get (the_obj w' storeInstance) "$reset" = Some (VReset s) ∧
    obj_get (the_obj w' storeInstance) "$subscribe" = Some (VSubscribe s) ∧
    obj_get (the_obj w' storeInstance) name =
    match last_binding (_methods s) name with
    | Some method => Some method
    | None =>
        match last_binding (default [] (getters options)) name with
        | Some getter =>
            Some (VComputed getter storeInstance (reactiveState st))
        | None =>
            if obj_has (the_obj w' (reactiveState st)) name
            then Some (VRef (reactiveState st) name)
            else (λ f, VBound f storeInstance)
                   <$> last_binding (default [] (actions options)) name
        end
    end.
Proof.
  intros H. destruct (assemble_state_ok _ _ _ _ _ H) as (fields & Hst).
  destruct (assemble_spec id options fields w Hst)
    as (init & d & wc & Hspec & Hinit & Hd & Hdlen & Hext & _).
  rewrite Hspec in H. injection H as <- <- Hw'.
  pose proof (prefix_length _ _ Hext) as Hlen. rewrite length_app in Hlen.
  simpl in Hlen.
  assert (stores w' !! length (stores w) = Some (mkStore id d init [] None))
    as Hstore.
  { rewrite <- Hw'. simpl. by apply list_lookup_middle. }
  assert (the_obj w' (length (heap w))
          = wired (length (heap w)) init (the_obj wc init) options
                  (length (stores w))) as Hinst.
  { rewrite <- Hw'. unfold the_obj. simpl.
    by rewrite list_lookup_insert_eq by lia. }
  assert (the_obj w' init = the_obj wc init) as Hstate.
  { rewrite <- Hw'. unfold the_obj. simpl.
    by rewrite list_lookup_insert_ne by lia. }
  exists (mkStore id d init [] None). split; [done|].
  simpl reactiveState. rewrite Hinst, Hstate, !wired_get.
  split; [by vm_compute|]. split; [by vm_compute|]. done.
Qed.

Lemma assembled_property_precedence_witness :
  obj_get (the_obj clash_world 1) "a" = Some (VRef 2 "a") ∧
  obj_get (the_obj clash_world 1) "b" = Some (VComputed 20 1 2) ∧
  obj_get (the_obj clash_world 1) "go" = Some (VBound 12 1) ∧
  obj_get (the_obj clash_world 1) "$reset" = Some (VReset 0) ∧
  obj_get (the_obj clash_world 1) "$subscribe" = Some (VSubscribe 0).
Proof.
  assert (assemble "clash" clash_options plain_world = (Ok (1, 0), clash_world))
    as H by (vm_compute; reflexivity).
  pose proof (assembled_property_precedence _ _ _ _ _ _ "a" H) as (st & Hst & Hr & Hs & Ha).
  pose proof (assembled_property_precedence _ _ _ _ _ _ "b" H) as (st' & Hst' & _ & _ & Hb).
  pose proof (assembled_property_precedence _ _ _ _ _ _ "go" H) as (st'' & Hst'' & _ & _ & Hgo).
  vm_compute in Hst, Hst', Hst''.
  injection Hst as <-. injection Hst' as <-. injection Hst'' as <-.
  split; [exact Ha|]. split; [exact Hb|]. split; [exact Hgo|].
  split; [exact Hr | exact Hs].
Defined.

(** ** Assembly: success and failure *)






(** ** [$subscribe] and [unsubscribe] in closed form *)

Lemma subscribe_spec s callback st w :
  stores w !! s = Some st →
  subscribe s callback w =
  (Ok (VUnsubscribe s callback),
   match _stopWatcher st with
   | Some h =>
       set_closure w s
         (with_subscriptions st (_subscriptions st ++ [callback]) (Some h))
         (watchers w)
   | None =>
       set_closure w s
         (with_subscriptions st (_subscriptions st ++ [callback])
                             (Some (length (watchers w))))
         (watchers w ++ [mkWatcher (reactiveState st) s true])
   end).
Proof.
  intros Hst. unfold subscribe. rewrite bind_unfold. simpl. rewrite Hst.
  rewrite !bind_unfold. simpl.
  destruct (_stopWatcher st) as [h|]; simpl; [done|].
  rewrite !bind_unfold. simpl.
  unfold set_closure, with_subscriptions. simpl.
  by rewrite list_insert_insert_eq.
Qed.

Lemma unsubscribe_spec s callback st w :
  stores w !! s = Some st →
  unsubscribe s callback w =
  (Ok (),
   match indexOf (_subscriptions st) callback with
   | None => w
   | Some index =>
       match delete index (_subscriptions st), _stopWatcher st with
       | [], Some h =>
           set_closure w s (with_subscriptions st [] None)
                       (alter stopped h (watchers w))
       | subs, h => set_closure w s (with_subscriptions st subs h) (watchers w)
       end
   end).
Proof.
  intros Hst. unfold unsubscribe. rewrite bind_unfold. simpl. rewrite Hst.
  destruct (indexOf (_subscriptions st) callback) as [index|]; [|done].
  rewrite !bind_unfold. simpl.
  destruct (delete index (_subscriptions st)) as [|c subs]; [|done].
  destruct (_stopWatcher st) as [h|]; [|done].
  rewrite !bind_unfold. simpl.
  unfold set_closure, with_subscriptions, set_store. simpl.
  by rewrite list_insert_insert_eq.
Qed.

(** ** The watcher follows the subscriptions *)

Lemma watcher_inv_has_watcher w s :
  watcher_inv w s → (has_watcher w s ↔ subscriptions w s ≠ []).
Proof.
  intros (st & Hst & Hinv). unfold subscriptions. rewrite Hst. simpl.
  destruct (_stopWatcher st) as [h|].
  - destruct Hinv as (Hsubs & Hh & _). split; [done|]. intros _.
    exists h, (mkWatcher (reactiveState st) s true). done.
  - destruct Hinv as (Hsubs & Hnone). split; [|done].
    intros (h & wt & Hh & Hs & Hactive).
    rewrite (Hnone h wt Hh Hs) in Hactive. done.
Qed.

Lemma subscribe_watcher_inv w s callback :
  watcher_inv w s → watcher_inv (subscribe s callback w).2 s.
Proof.
  intros (st & Hst & Hinv). rewrite (subscribe_spec _ _ _ _ Hst). simpl.
  pose proof (lookup_lt_Some _ _ _ Hst) as Hlt.
  destruct (_stopWatcher st) as [h|].
  - destruct Hinv as (Hsubs & Hh & Huniq).
    eexists. split; [apply list_lookup_insert_eq, Hlt|]. simpl.
    split; [by destruct (_subscriptions st)|]. done.
  - destruct Hinv as (Hsubs & Hnone).
    eexists. split; [apply list_lookup_insert_eq, Hlt|]. simpl.
    split; [by destruct (_subscriptions st)|].
    split; [by apply list_lookup_middle|].
    intros h' wt Hh' Hs Hactive.
    destruct (decide (h' < length (watchers w))) as [Hlt'|Hge].
    + rewrite lookup_app_l in Hh' by done.
      rewrite (Hnone h' wt Hh' Hs) in Hactive. done.
    + apply lookup_lt_Some in Hh'. rewrite length_app in Hh'. simpl in Hh'. lia.
Qed.

Lemma unsubscribe_watcher_inv w s callback :
  watcher_inv w s → watcher_inv (unsubscribe s callback w).2 s.
Proof.
  intros (st & Hst & Hinv). rewrite (unsubscribe_spec _ _ _ _ Hst). simpl.
  pose proof (lookup_lt_Some _ _ _ Hst) as Hlt.
  destruct (indexOf (_subscriptions st) callback) as [index|] eqn:Hindex;
    [|by exists st].
  destruct (_stopWatcher st) as [h|] eqn:Hstop.
  - destruct Hinv as (Hsubs & Hh & Huniq).
    destruct (delete index (_subscriptions st)) as [|c subs] eqn:Hdel.
    + eexists. split; [apply list_lookup_insert_eq, Hlt|]. simpl.
      split; [done|]. intros h' wt Hh' Hs.
      destruct (decide (h' = h)) as [->|Hne].
      * rewrite list_lookup_alter_eq, Hh in Hh'. simpl in Hh'.
        by injection Hh' as <-.
      * rewrite list_lookup_alter_ne in Hh' by done.
        destruct (w_active wt) eqn:Hactive; [|done].
        by destruct (Hne (Huniq h' wt Hh' Hs Hactive)).
    + eexists. split; [apply list_lookup_insert_eq, Hlt|]. simpl. done.
  - destruct Hinv as (Hsubs & Hnone). rewrite Hsubs in Hindex. done.
Qed.

Lemma assemble_watcher_inv id options w storeInstance s w' :
  watchers_closed w →
  assemble id options w = (Ok (storeInstance, s), w') →
  watcher_inv w' s ∧ subscriptions w' s = [].
Proof.
  intros Hclosed H. destruct (assemble_state_ok _ _ _ _ _ H) as (fields & Hst).
  destruct (assemble_spec id options fields w Hst)
    as (init & d & wc & Hspec & _).
  rewrite Hspec in H. injection H as _ <- <-.
  assert ((stores w ++ [mkStore id d init [] None]) !! length (stores w)
          = Some (mkStore id d init [] None)) as Hlookup
    by (by apply list_lookup_middle).
  split.
  - exists (mkStore id d init [] None). simpl. split; [done|]. split; [done|].
    intros h wt Hh Hs. apply Hclosed in Hh. lia.
  - unfold subscriptions. simpl. by rewrite Hlookup.
Qed.

(** C6: a closure has a running watcher exactly when it has a subscription.
    A store fresh from assembly has neither; [$subscribe] and [unsubscribe]
    keep the two in step: after [$subscribe] there is a watcher, and when
    [unsubscribe] leaves no subscription there is none. *)
Theorem watcher_iff_subscribed :
  (∀ id options w storeInstance s w',
     watchers_closed w →
     assemble id options w = (Ok (storeInstance, s), w') →
     watcher_inv w' s ∧ subscriptions w' s = [] ∧ ¬ has_watcher w' s) ∧
  (∀ w s,
     watcher_inv w s →
     (has_watcher w s ↔ subscriptions w s ≠ []) ∧
     ∀ callback,
       watcher_inv (subscribe s callback w).2 s ∧
       has_watcher (subscribe s callback w).2 s ∧
       watcher_inv (unsubscribe s callback w).2 s ∧
       (has_watcher (unsubscribe s callback w).2 s ↔
        subscriptions (unsubscribe s callback w).2 s ≠ [])).
Proof.
  split.
  - intros id options w storeInstance s w' Hclosed H.
    destruct (assemble_watcher_inv _ _ _ _ _ _ Hclosed H) as (Hinv & Hsubs).
    split; [done|]. split; [done|].
    rewrite (watcher_inv_has_watcher _ _ Hinv), Hsubs. by intros ?.
  - intros w s Hinv. split; [by apply watcher_inv_has_watcher|].
    intros callback.
    pose proof (subscribe_watcher_inv w s callback Hinv) as Hsub.
    pose proof (unsubscribe_watcher_inv w s callback Hinv) as Hunsub.
    split; [done|]. split; [|split; [done | by apply watcher_inv_has_watcher]].
    apply (watcher_inv_has_watcher _ _ Hsub).
    destruct Hinv as (st & Hst & _).
    unfold subscriptions. rewrite (subscribe_spec _ _ _ _ Hst).
    pose proof (lookup_lt_Some _ _ _ Hst) as Hlt.
    destruct (_stopWatcher st); simpl;
      rewrite list_lookup_insert_eq by done; simpl;
      by destruct (_subscriptions st).
Qed.

Lemma watcher_iff_subscribed_witness :
  ¬ has_watcher clash_world 0 ∧
  has_watcher (subscribe 0 7 clash_world).2 0 ∧
  ¬ has_watcher (unsubscribe 0 7 (subscribe 0 7 clash_world).2).2 0.
Proof.
  destruct watcher_iff_subscribed as [Hfresh Hstep].
  assert (watchers_closed plain_world) as Hclosed.
  { intros h wt Hh. vm_compute in Hh. destruct h; discriminate Hh. }
  assert (assemble "clash" clash_options plain_world = (Ok (1, 0), clash_world))
    as H by (vm_compute; reflexivity).
  destruct (Hfresh _ _ _ _ _ _ Hclosed H) as (Hinv & _ & Hno).
  destruct (Hstep _ _ Hinv) as (_ & Hcb).
  destruct (Hcb 7) as (Hinv1 & Hhas1 & _).
  destruct (Hstep _ _ Hinv1) as (_ & Hcb1).
  destruct (Hcb1 7) as (_ & _ & _ & Hiff).
  split; [exact Hno|]. split; [exact Hhas1|].
  intros Hw. apply Hiff in Hw. apply Hw. vm_compute. reflexivity.
Defined.

(** ** [unsubscribe] called again *)

Lemma indexOf_remove_first l x :
  match indexOf l x with Some i => delete i l | None => l end = remove_first x l.
Proof.
  induction l as [|y l IH]; simpl; [done|].
  destruct (decide (y = x)) as [->|Hne]; [done|].
  destruct (indexOf l x) as [i|]; simpl in *; by rewrite <- IH.
Qed.

Lemma indexOf_not_elem l x : x ∉ l → indexOf l x = None.
Proof.
  induction l as [|y l IH]; simpl; [done|].
  intros Hx. apply not_elem_of_cons in Hx as [Hne Hx].
  rewrite decide_False by done. by rewrite IH.
Qed.

Lemma unsubscribe_subscriptions w s st callback :
  stores w !! s = Some st →
  stores (unsubscribe s callback w).2 !! s
  = Some (with_subscriptions st (remove_first callback (_subscriptions st))
            (match remove_first callback (_subscriptions st) with
             | [] => match indexOf (_subscriptions st) callback with
                     | Some _ => None
                     | None => _stopWatcher st
                     end
             | _ => _stopWatcher st
             end)).
Proof.
  intros Hst. rewrite (unsubscribe_spec _ _ _ _ Hst). simpl.
  pose proof (lookup_lt_Some _ _ _ Hst) as Hlt.
  rewrite <- indexOf_remove_first.
  destruct (indexOf (_subscriptions st) callback) as [index|].
  - destruct (delete index (_subscriptions st)) as [|c subs].
    + destruct (_stopWatcher st); simpl; by rewrite list_lookup_insert_eq.
    + simpl. by rewrite list_lookup_insert_eq.
  - rewrite Hst. destruct st as [? ? ? subs h]. unfold with_subscriptions. simpl.
    by destruct subs.
Qed.

(** C7, as the code has it: [unsubscribe] removes the earliest registration
    of its callback that is still in the list; when the callback is then no
    longer registered, that is when it was registered at most once, every
    further call changes nothing at all. *)
Theorem unsubscribe_again w s st callback :
  stores w !! s = Some st →
  subscriptions (unsubscribe s callback w).2 s
  = remove_first callback (_subscriptions st) ∧
  (callback ∉ remove_first callback (_subscriptions st) →
   ∀ n, Nat.iter n (λ w', (unsubscribe s callback w').2)
                 (unsubscribe s callback w).2
        = (unsubscribe s callback w).2).
Proof.
  intros Hst. pose proof (unsubscribe_subscriptions w s st callback Hst) as Hst1.
  split.
  - unfold subscriptions. by rewrite Hst1.
  - intros Honce n. induction n as [|n IH]; simpl; [done|]. rewrite IH.
    rewrite (unsubscribe_spec _ _ _ _ Hst1). simpl.
    by rewrite indexOf_not_elem.
Qed.

Lemma unsubscribe_again_witness :
  subscriptions (unsubscribe 0 7 (subscribe 0 7 clash_world).2).2 0 = [] ∧
  Nat.iter 3 (λ w', (unsubscribe 0 7 w').2)
           (unsubscribe 0 7 (subscribe 0 7 clash_world).2).2
  = (unsubscribe 0 7 (subscribe 0 7 clash_world).2).2.
Proof.
  assert (stores (subscribe 0 7 clash_world).2 !! 0
          = Some (mkStore "clash" 3 2 [7] (Some 0))) as Hst
    by (vm_compute; reflexivity).
  destruct (unsubscribe_again _ _ _ 7 Hst) as (Hsubs & Hnoop).
  split; [exact Hsubs|]. apply (Hnoop (not_elem_of_nil 7) 3).
Defined.

(** C7 as stated fails when the same callback is subscribed twice: the
    second call of the first [unsubscribe] closure removes the other
    registration and stops the watcher. *)
Lemma unsubscribe_twice_counterexample :
  (subscribe 0 7 clash_world).1 = Ok (VUnsubscribe 0 7) ∧
  subscriptions subscribed_twice 0 = [7; 7] ∧
  subscriptions unsubscribed_once 0 = [7] ∧
  subscriptions (call (VUnsubscribe 0 7) VUndefined unsubscribed_once).2 0 = [] ∧
  watchers unsubscribed_once = [mkWatcher 2 0 true] ∧
  watchers (call (VUnsubscribe 0 7) VUndefined unsubscribed_once).2
  = [mkWatcher 2 0 false] ∧
  (call (VUnsubscribe 0 7) VUndefined unsubscribed_once).2 ≠ unsubscribed_once.
Proof.
  repeat (split; [vm_compute; reflexivity|]).
  intros H. apply (f_equal watchers) in H. vm_compute in H. discriminate H.
Qed.

(** ** What the deep traversal of a watcher tracks *)

Lemma follow_no_ref fuel h v cells :
  isRef v = false → follow fuel h v cells = (v, cells).
Proof. by destruct fuel, v. Qed.

(** What has been visited stays visited. *)
Lemma traverse_visited fuel h :
  ∀ v seen l, l ∈ seen.1 → l ∈ (traverse fuel h v seen).1.
Proof.
  induction fuel as [|fuel IH]; intros v seen l Hl; simpl; [done|].
  assert (∀ (fields : obj) acc, l ∈ acc.1 →
            l ∈ (foldl (λ acc kv, traverse fuel h kv.2 acc) acc fields).1)
    as Hfold.
  { induction fields as [|kv fields IHf]; intros acc Hacc; simpl; [done|].
    apply IHf. by apply IH. }
  destruct (follow (ref_fuel h) h v seen.2) as [x cells].
  destruct x; simpl; try done.
  - case_bool_decide; [done|]. apply Hfold. simpl. by apply list_elem_of_further.
  - case_bool_decide; [done|]. apply Hfold. simpl. by apply list_elem_of_further.
Qed.

(** The traversal of a state visits the state object itself, so a watcher
    of a state is triggered by every change of a field of that state. *)
Lemma tracks_self h root key : tracks h root root key = true.
Proof.
  unfold tracks. apply orb_true_iff. left. apply bool_decide_eq_true.
  simpl. rewrite follow_no_ref by done. simpl.
  generalize (default [] (h !! root)). intros fields.
  assert (∀ acc, root ∈ acc.1 →
            root ∈ (foldl (λ acc kv, traverse (length h) h kv.2 acc) acc fields).1)
    as Hfold.
  { induction fields as [|kv fields IHf]; intros acc Hacc; simpl; [done|].
    apply IHf. by apply traverse_visited. }
  apply Hfold. simpl. apply list_elem_of_here.
Qed.

(** ** What a trigger delivers *)

Lemma flat_map_nil {A B} (f : A → list B) l :
  (∀ i y, l !! i = Some y → f y = []) → flat_map f l = [].
Proof.
  induction l as [|y l IH]; intros H; simpl; [done|].
  rewrite (H 0 y) by done. apply IH. intros i z Hz. by apply (H (S i)).
Qed.

Lemma flat_map_single {A B} (f : A → list B) l h x :
  l !! h = Some x →
  (∀ i y, l !! i = Some y → i ≠ h → f y = []) →
  flat_map f l = f x.
Proof.
  revert h. induction l as [|y l IH]; intros h Hh H; [done|]. simpl.
  destruct h as [|h]; simpl in Hh.
  - injection Hh as ->. rewrite flat_map_nil; [by rewrite app_nil_r|].
    intros i z Hz. by apply (H (S i)).
  - rewrite (H 0 y) by done. simpl. apply (IH h); [done|].
    intros i z Hz Hne. apply (H (S i)); [done | lia].
Qed.

(** With the watcher in step with the subscriptions, and no foreign watcher
    tracking the property, one trigger of a property that the watcher of
    the closure tracks calls each subscribed callback once, in the order of
    registration, with the state as it then is. *)
Lemma deliveries_subscriptions w s st l key :
  watcher_inv w s →
  stores w !! s = Some st →
  tracks (heap w) (reactiveState st) l key = true →
  (∀ h wt, watchers w !! h = Some wt → w_active wt = true →
           tracks (heap w) (w_source wt) l key = true → w_store wt = s) →
  deliveries w l key
  = map (callback_event st (the_obj w (reactiveState st))) (_subscriptions st).
Proof.
  intros (st' & Hst' & Hinv) Hst Htracks Hsole.
  rewrite Hst in Hst'. injection Hst' as <-.
  unfold deliveries.
  assert (∀ i wt, watchers w !! i = Some wt →
            w_active wt && tracks (heap w) (w_source wt) l key = true →
            w_store wt = s ∧ w_active wt = true) as Hmine.
  { intros i wt Hwt Hc. apply andb_true_iff in Hc as [Ha Hsrc].
    split; [|done]. by eapply Hsole. }
  destruct (_stopWatcher st) as [h|].
  - destruct Hinv as (_ & Hh & Huniq).
    rewrite (flat_map_single _ _ h _ Hh).
    + unfold deliveries_of. simpl. rewrite Htracks. by rewrite Hst.
    + intros i wt Hwt Hne. unfold deliveries_of.
      destruct (w_active wt && tracks (heap w) (w_source wt) l key)
        eqn:Hc; [|done].
      destruct (Hmine i wt Hwt Hc) as [Hs Ha].
      by destruct (Hne (Huniq i wt Hwt Hs Ha)).
  - destruct Hinv as (-> & Hnone). simpl.
    apply flat_map_nil. intros i wt Hwt. unfold deliveries_of.
    destruct (w_active wt && tracks (heap w) (w_source wt) l key)
      eqn:Hc; [|done].
    destruct (Hmine i wt Hwt Hc) as [Hs Ha].
    rewrite (Hnone i wt Hwt Hs) in Ha. done.
Qed.

Lemma notifications_subscriptions w s st o key :
  watcher_inv w s →
  stores w !! s = Some st →
  sole_watcher w s (reactiveState st) →
  reactiveState st < length (heap w) →
  notifications w (reactiveState st) o key
  = map (callback_event st o) (_subscriptions st).
Proof.
  intros Hinv Hst Hsole Hlt. unfold notifications.
  rewrite (deliveries_subscriptions _ s st); try done.
  - by rewrite the_obj_set_heap_insert.
  - apply tracks_self.
  - intros h wt Hwt Ha Ht. simpl in *. by eapply Hsole.
Qed.

Lemma callbacks_callback_events st o subs :
  callbacks (map (callback_event st o) subs) = subs.
Proof. unfold callbacks. induction subs as [|c subs IH]; simpl; by f_equal. Qed.

Lemma new_events_app {A} (m : M A) w evs :
  trace (m w).2 = trace w ++ evs → new_events m w = evs.
Proof. intros H. unfold new_events. by rewrite H, drop_app_length. Qed.

(** ** [$reset] in closed form *)

(** A loop whose every step takes the world from one state of a
    description to the next, as long as the description keeps to [I]. *)
Lemma forEach_fold {A S} (f : A → M unit) (step : S → A → S) (W : S → World)
    (I : S → Prop) (P : A → Prop) xs st :
  (∀ x st, P x → I st → f x (W st) = (Ok (), W (step st x)) ∧ I (step st x)) →
  Forall P xs → I st →
  forEach f xs (W st) = (Ok (), W (foldl step st xs)) ∧ I (foldl step st xs).
Proof.
  intros Hf Hxs. revert st.
  induction Hxs as [|x xs Hx _ IH]; intros st Hst; simpl; [done|].
  destruct (Hf x st Hx Hst) as [Hstep Hst'].
  rewrite (bind_ok _ _ _ _ _ Hstep). by apply IH.
Qed.

Lemma during_start w root :
  during w root (the_obj w root, []) = w.
Proof.
  unfold during. simpl. rewrite insert_the_obj, app_nil_r. by destruct w.
Qed.

Lemma the_obj_during w root st :
  root < length (heap w) → the_obj (during w root st) root = st.1.
Proof. intros H. unfold the_obj. simpl. by rewrite list_lookup_insert_eq. Qed.

Lemma the_obj_during_ne w root st l :
  root ≠ l → the_obj (during w root st) l = the_obj w l.
Proof. intros H. unfold the_obj. simpl. by rewrite list_lookup_insert_ne. Qed.

Lemma deliveries_during w root st o key :
  deliveries (set_heap (during w root st) (<[root := o]> (heap (during w root st))))
             root key
  = notifications w root o key.
Proof.
  unfold notifications, deliveries, deliveries_of, during. simpl.
  by rewrite list_insert_insert_eq.
Qed.

Lemma proxy_delete_during w root st key :
  root < length (heap w) →
  proxy_delete root key (during w root st) =
  (Ok (), during w root
            (obj_delete st.1 key,
             st.2 ++ if obj_has st.1 key
                     then notifications w root (obj_delete st.1 key) key else [])).
Proof.
  intros Hlt. rewrite proxy_delete_spec. cbv zeta.
  rewrite the_obj_during by done. rewrite deliveries_during.
  f_equal. unfold during, set_heap, add_trace. simpl.
  rewrite list_insert_insert_eq.
  destruct (obj_has st.1 key); simpl; [by rewrite app_assoc | by rewrite app_nil_r].
Qed.

Lemma proxy_set_during w root st key v :
  root < length (heap w) →
  holds_no_ref st.1 →
  proxy_set root key v (during w root st) =
  (Ok (), during w root
            (obj_set st.1 key (toRaw v),
             st.2 ++ if changes st.1 key v
                     then notifications w root (obj_set st.1 key (toRaw v)) key
                     else [])).
Proof.
  intros Hlt Href. rewrite proxy_set_spec.
  2: { apply holds_no_ref_field. by rewrite the_obj_during. }
  cbv zeta.
  rewrite the_obj_during by done. rewrite deliveries_during.
  f_equal. unfold during, set_heap, add_trace. simpl.
  rewrite list_insert_insert_eq.
  destruct (changes st.1 key v); simpl; [by rewrite app_assoc | by rewrite app_nil_r].
Qed.

Lemma holds_no_ref_delete o key : holds_no_ref o → holds_no_ref (obj_delete o key).
Proof.
  unfold holds_no_ref. induction 1 as [|[k v] o Hv _ IH]; simpl; [done|].
  destruct (decide (k = key)); [done|]. by constructor.
Qed.

Lemma holds_no_ref_set o key v :
  isRef v = false → holds_no_ref o → holds_no_ref (obj_set o key v).
Proof.
  unfold holds_no_ref. intros Hv. induction 1 as [|[k x] o Hx Ho IH]; simpl.
  - by repeat constructor.
  - destruct (decide (k = key)); by constructor.
Qed.

Lemma obj_get_elem_of (o : obj) key v :
  NoDup (obj_keys o) → (key, v) ∈ o → obj_get o key = Some v.
Proof.
  unfold obj_keys. induction o as [|[k x] o IH]; simpl; intros Hnd Hin.
  - by apply elem_of_nil in Hin.
  - apply NoDup_cons in Hnd as [Hk Hnd].
    apply elem_of_cons in Hin as [[= -> ->]|Hin]; [by rewrite decide_True|].
    rewrite decide_False; [by apply IH|].
    intros ->. apply Hk. apply list_elem_of_fmap. by exists (key, v).
Qed.

(** [$reset] of a store whose state and snapshot hold no ref. *)
Lemma reset_spec w s st :
  stores w !! s = Some st →
  reactiveState st ≠ defaultState st →
  reactiveState st < length (heap w) →
  holds_no_ref (the_obj w (reactiveState st)) →
  holds_no_ref (the_obj w (defaultState st)) →
  NoDup (obj_keys (the_obj w (defaultState st))) →
  reset s w =
  (Ok (), during w (reactiveState st)
            (reset_result w (reactiveState st) (the_obj w (reactiveState st))
                          (the_obj w (defaultState st)))).
Proof.
  intros Hst Hne Hlt Hlive Hdflt Hnd. unfold reset. rewrite bind_unfold. simpl.
  rewrite Hst. rewrite (bind_ok _ _ _ _ _ (read_eq _ _)).
  set (root := reactiveState st). set (d := defaultState st).
  match goal with
  | |- ?m w = _ =>
      transitivity (m (during w root (the_obj w root, [])));
        [by rewrite during_start|]
  end.
  destruct (forEach_fold
              (λ key, d' ← read d;
                      if obj_has d' key then mret () else proxy_delete root key)
              (reset_delete w root (the_obj w d)) (during w root)
              (λ st', holds_no_ref st'.1) (λ _, True)
              (obj_keys (the_obj w root)) (the_obj w root, []))
    as [Hdelete Hlive'].
  { intros key st' _ Hst'. rewrite (bind_ok _ _ _ _ _ (read_eq _ _)).
    rewrite the_obj_during_ne by done. unfold reset_delete.
    destruct (obj_has (the_obj w d) key); [done|].
    split; [by apply proxy_delete_during | by apply holds_no_ref_delete]. }
  { by apply Forall_true. }
  { done. }
  rewrite (bind_ok _ _ _ _ _ Hdelete).
  rewrite (bind_ok _ _ _ _ _ (read_eq _ _)).
  rewrite the_obj_during_ne by done.
  set (step := λ (st' : obj * list event) (key : string),
                 match obj_get (the_obj w d) key with
                 | Some v => reset_assign w root st' (key, v)
                 | None => st'
                 end).
  assert (∀ (l : obj) st',
            (∀ kv, kv ∈ l → obj_get (the_obj w d) kv.1 = Some kv.2) →
            foldl step st' (obj_keys l) = foldl (reset_assign w root) st' l)
    as Hkeys.
  { unfold obj_keys. induction l as [|[k v] l IH]; intros st' Hl; simpl; [done|].
    assert (step st' k = reset_assign w root st' (k, v)) as ->.
    { pose proof (Hl (k, v) (list_elem_of_here _ _)) as Hk. simpl in Hk.
      unfold step. by rewrite Hk. }
    apply IH. intros kv Hkv. apply Hl. by apply list_elem_of_further. }
  unfold reset_result.
  rewrite <- Hkeys by (intros [k v] Hkv; by apply obj_get_elem_of).
  apply (forEach_fold _ step (during w root)
           (λ st', holds_no_ref st'.1) (λ _, True)).
  - intros key st' _ Hst'. rewrite (bind_ok _ _ _ _ _ (read_eq _ _)).
    rewrite the_obj_during_ne by done. unfold step.
    destruct (obj_get (the_obj w d) key) as [v|] eqn:Hv; [|done].
    split; [by apply proxy_set_during|].
    apply holds_no_ref_set; [|done]. rewrite isRef_toRaw.
    pose proof (holds_no_ref_field w d key Hdflt) as Hf.
    unfold field in Hf. fold (the_obj w d) in Hf. by rewrite Hv in Hf.
  - by apply Forall_true.
  - done.
Qed.

(** ** What [$reset] leaves in the state *)

Lemma reset_assign_fst w root st l :
  (foldl (reset_assign w root) st l).1
  = foldl (λ o kv, obj_set o kv.1 (toRaw kv.2)) st.1 l.
Proof. revert st. induction l as [|kv l IH]; intros st; simpl; [done|]. by rewrite IH. Qed.

Lemma reset_delete_fst w root dflt st ks :
  (foldl (reset_delete w root dflt) st ks).1
  = foldl (λ o k, if obj_has dflt k then o else obj_delete o k) st.1 ks.
Proof.
  revert st. induction ks as [|k ks IH]; intros st; simpl; [done|].
  rewrite IH. unfold reset_delete. by destruct (obj_has dflt k).
Qed.

Lemma obj_get_obj_delete o k key :
  obj_get (obj_delete o k) key = if decide (k = key) then None else obj_get o key.
Proof.
  induction o as [|[k' x] r IH]; simpl.
  - by destruct (decide (k = key)).
  - destruct (decide (k' = k)) as [->|Hne]; simpl.
    + rewrite IH. destruct (decide (k = key)); [done|]. done.
    + rewrite IH. destruct (decide (k' = key)) as [->|]; [|done].
      by rewrite decide_False.
Qed.

Lemma obj_get_None o key : obj_get o key = None ↔ key ∉ obj_keys o.
Proof.
  unfold obj_keys. induction o as [|[k v] r IH]; simpl.
  - split; [intros _; apply not_elem_of_nil | done].
  - rewrite not_elem_of_cons. destruct (decide (k = key)) as [->|Hne].
    + split; [done | by intros [? _]].
    + rewrite IH. split; [by intros ? | by intros [_ ?]].
Qed.

Lemma obj_get_foldl_delete dflt ks o key :
  obj_get (foldl (λ o k, if obj_has dflt k then o else obj_delete o k) o ks) key
  = if bool_decide (key ∈ ks) && negb (obj_has dflt key) then None
    else obj_get o key.
Proof.
  revert o. induction ks as [|k ks IH]; intros o; simpl; [done|].
  rewrite IH. destruct (decide (k = key)) as [->|Hne].
  - rewrite (bool_decide_eq_true_2 (key ∈ key :: ks)) by apply list_elem_of_here.
    destruct (obj_has dflt key); simpl.
    + by rewrite andb_false_r.
    + rewrite obj_get_obj_delete, decide_True by done.
      by destruct (bool_decide (key ∈ ks)).
  - assert (bool_decide (key ∈ k :: ks) = bool_decide (key ∈ ks)) as ->.
    { apply bool_decide_ext. rewrite elem_of_cons.
      split; [intros [Heq|Hin]; [by destruct Hne | done] | by right]. }
    destruct (bool_decide (key ∈ ks) && negb (obj_has dflt key)); [done|].
    destruct (obj_has dflt k); [done|].
    by rewrite obj_get_obj_delete, decide_False.
Qed.

Lemma obj_get_foldl_assign (g : value → value) (l : obj) o key :
  obj_get (foldl (λ o kv, obj_set o kv.1 (g kv.2)) o l) key =
  match last_binding l key with
  | Some v => Some (g v)
  | None => obj_get o key
  end.
Proof.
  revert o. induction l as [|[k a] r IH]; intros o; simpl; [done|].
  rewrite IH. destruct (last_binding r key) as [b|]; [done|].
  rewrite obj_get_obj_set. by destruct (decide (k = key)) as [->|].
Qed.

Lemma last_binding_NoDup (l : obj) key :
  NoDup (obj_keys l) → last_binding l key = obj_get l key.
Proof.
  unfold obj_keys. induction l as [|[k v] r IH]; simpl; [done|].
  intros Hnd. apply NoDup_cons in Hnd as [Hk Hnd]. rewrite IH by done.
  destruct (decide (k = key)) as [->|Hne]; [|by destruct (obj_get r key)].
  apply obj_get_None in Hk. by rewrite Hk.
Qed.

(** After [$reset] the state has exactly the fields of the snapshot, each
    with its snapshot value. *)
Lemma reset_result_get w root live dflt key :
  NoDup (obj_keys dflt) →
  obj_get (reset_result w root live dflt).1 key = toRaw <$> obj_get dflt key.
Proof.
  intros Hnd. unfold reset_result.
  rewrite reset_assign_fst, obj_get_foldl_assign, last_binding_NoDup by done.
  destruct (obj_get dflt key) as [v|] eqn:Hd; [done|]. simpl.
  rewrite reset_delete_fst, obj_get_foldl_delete. simpl.
  unfold obj_has. rewrite Hd. simpl. rewrite andb_true_r.
  destruct (bool_decide (key ∈ obj_keys live)) eqn:Hin; [done|].
  apply bool_decide_eq_false in Hin. by apply obj_get_None.
Qed.

(** ** Assignments on the instance object *)

Lemma set_prop_obj l key v w :
  set_prop (VObj l) key v w
  = (Ok (), set_heap w (<[l := obj_set (the_obj w l) key v]> (heap w))).
Proof. reflexivity. Qed.

Lemma get_prop_obj l key w :
  get_prop (VObj l) key w = (Ok (default VUndefined (obj_get (the_obj w l) key)), w).
Proof. reflexivity. Qed.

Lemma the_obj_set_heap_insert_ne w l l' o :
  l ≠ l' → the_obj (set_heap w (<[l := o]> (heap w))) l' = the_obj w l'.
Proof. intros H. unfold the_obj. simpl. by rewrite list_lookup_insert_ne. Qed.

(** C2 fails on the code: the instance is a plain object that holds a
    handle for every state field, so [store.a = 99] and
    [store.newField = 'x'] replace and add properties of the instance and
    never reach the state, and [store.$reset()], which restores the state,
    leaves them on the instance: after the sequence [store.a] is [99] and
    [store.newField] is ['x']. *)
Theorem instance_assignments_survive_reset w s st store dflt :
  stores w !! s = Some st →
  obj_get (the_obj w store) "$reset" = Some (VReset s) →
  store < length (heap w) →
  store ≠ reactiveState st →
  store ≠ defaultState st →
  reactiveState st ≠ defaultState st →
  reactiveState st < length (heap w) →
  heap w !! defaultState st = Some dflt →
  NoDup (obj_keys dflt) →
  holds_no_ref (the_obj w (reactiveState st)) →
  holds_no_ref dflt →
  (run (assign_then_reset store) w).1 = Ok () ∧
  the_obj (set_prop (VObj store) "newField" (VStr "x")
             (set_prop (VObj store) "a" (VNum 99) w).2).2 (reactiveState st)
  = the_obj w (reactiveState st) ∧
  obj_get (the_obj (run (assign_then_reset store) w).2 store) "a"
  = Some (VNum 99) ∧
  obj_get (the_obj (run (assign_then_reset store) w).2 store) "newField"
  = Some (VStr "x") ∧
  ∀ key, obj_get (the_obj (run (assign_then_reset store) w).2 (reactiveState st)) key
         = toRaw <$> obj_get dflt key.
Proof.
  intros Hst Hreset Hlt Hne Hned Hrd Hrlt Hdflt Hnd Hlive Href.
  set (wa := set_heap w (<[store := obj_set (the_obj w store) "a" (VNum 99)]> (heap w))).
  set (wb := set_heap wa (<[store := obj_set (the_obj wa store) "newField" (VStr "x")]>
                            (heap wa))).
  assert (the_obj wa store = obj_set (the_obj w store) "a" (VNum 99)) as Hwa
    by (by apply the_obj_set_heap_insert).
  assert (the_obj wb store
          = obj_set (obj_set (the_obj w store) "a" (VNum 99)) "newField" (VStr "x"))
    as Hwb.
  { unfold wb. rewrite the_obj_set_heap_insert, Hwa; [done|].
    simpl. by rewrite length_insert. }
  assert (∀ l, store ≠ l → the_obj wb l = the_obj w l) as Hother.
  { intros l Hl. unfold wb, wa.
    by rewrite !the_obj_set_heap_insert_ne. }
  assert (run (assign_then_reset store) w
          = (Ok (), during wb (reactiveState st)
                      (reset_result wb (reactiveState st)
                         (the_obj w (reactiveState st)) dflt))) as Hrun.
  { unfold assign_then_reset. cbn [run].
    rewrite (bind_ok _ _ _ _ _ (set_prop_obj _ _ _ _)). fold wa.
    rewrite (bind_ok _ _ _ _ _ (set_prop_obj _ _ _ _)). fold wb.
    rewrite (bind_ok _ _ _ _ _ (get_prop_obj _ _ _)).
    rewrite Hwb, !obj_get_obj_set, !decide_False, Hreset by done. simpl.
    cbn [run]. unfold call. rewrite !bind_unfold.
    assert (the_obj w (defaultState st) = dflt) as Hd
      by (unfold the_obj; by rewrite Hdflt).
    rewrite (reset_spec wb s st).
    - simpl. by rewrite !Hother, Hd.
    - done.
    - done.
    - unfold wb, wa. simpl. by rewrite !length_insert.
    - by rewrite Hother.
    - by rewrite Hother, Hd.
    - by rewrite Hother, Hd. }
  rewrite Hrun. cbn [fst snd].
  split; [done|]. split.
  { rewrite (set_prop_obj store "a"). cbn [snd]. fold wa.
    rewrite (set_prop_obj store "newField"). cbn [snd]. fold wb.
    by apply Hother. }
  assert (reactiveState st < length (heap wb)) as Hrlt'
    by (unfold wb, wa; simpl; by rewrite !length_insert).
  rewrite the_obj_during_ne, Hwb by done.
  rewrite !obj_get_obj_set. rewrite decide_False by done.
  rewrite !decide_True by done.
  split; [done|]. split; [done|].
  intros key. rewrite the_obj_during by done. by apply reset_result_get.
Qed.

Lemma instance_assignments_survive_reset_witness :
  the_obj counter_world 2 = [("a", VNum 1); ("b", VNum 2)] ∧
  obj_get (the_obj counter_world 1) "a" = Some (VRef 2 "a") ∧
  (run (assign_then_reset 1) counter_world).1 = Ok () ∧
  obj_get (the_obj (run (assign_then_reset 1) counter_world).2 1) "a"
  = Some (VNum 99) ∧
  obj_get (the_obj (run (assign_then_reset 1) counter_world).2 1) "newField"
  = Some (VStr "x").
Proof.
  split; [vm_compute; reflexivity|]. split; [vm_compute; reflexivity|].
  destruct (instance_assignments_survive_reset counter_world 0
              (mkStore "counter" 3 2 [] None) 1 [("a", VNum 1); ("b", VNum 2)])
    as (Hok & _ & Ha & Hnew & _).
  - vm_compute. reflexivity.
  - vm_compute. reflexivity.
  - vm_compute. lia.
  - simpl. lia.
  - simpl. lia.
  - simpl. lia.
  - vm_compute. lia.
  - vm_compute. reflexivity.
  - apply (bool_decide_unpack _). vm_compute. exact I.
  - apply (bool_decide_unpack _). vm_compute. exact I.
  - apply (bool_decide_unpack _). vm_compute. exact I.
  - split; [exact Hok|]. split; [exact Ha | exact Hnew].
Defined.

(** C4 fails on the code: after [store.$subscribe(callback)], the
    assignment [store.a = 5] (any key, any value) is an assignment to a
    property of the plain instance object; it replaces the handle of the
    field by the value, leaves the state as it is and calls no callback,
    though the callback is subscribed and the watcher runs. *)
Theorem instance_assignment_notifies_nobody w s st store callback key v :
  watcher_inv w s →
  stores w !! s = Some st →
  obj_get (the_obj w store) "$subscribe" = Some (VSubscribe s) →
  store < length (heap w) →
  store ≠ reactiveState st →
  (run (subscribe_then_assign store callback key v) w).1 = Ok () ∧
  subscriptions (run (subscribe_then_assign store callback key v) w).2 s
  = _subscriptions st ++ [callback] ∧
  has_watcher (run (subscribe_then_assign store callback key v) w).2 s ∧
  new_events (run (subscribe_then_assign store callback key v)) w = [] ∧
  the_obj (run (subscribe_then_assign store callback key v) w).2 (reactiveState st)
  = the_obj w (reactiveState st) ∧
  obj_get (the_obj (run (subscribe_then_assign store callback key v) w).2 store) key
  = Some v.
Proof.
  intros Hinv Hst Hsub Hlt Hne.
  set (ws := (subscribe s callback w).2).
  assert (subscribe s callback w = (Ok (VUnsubscribe s callback), ws)) as Hsubscribe.
  { unfold ws. by rewrite (subscribe_spec _ _ _ _ Hst). }
  assert (heap ws = heap w ∧ trace ws = trace w ∧
          stores ws !! s
          = Some (with_subscriptions st (_subscriptions st ++ [callback])
                    (Some (default (length (watchers w)) (_stopWatcher st)))))
    as (Hheap & Htrace & Hstores).
  { unfold ws. rewrite (subscribe_spec _ _ _ _ Hst). simpl.
    apply lookup_lt_Some in Hst as Hslt.
    destruct (_stopWatcher st); simpl; by rewrite list_lookup_insert_eq. }
  assert (run (subscribe_then_assign store callback key v) w
          = (Ok (), set_heap ws (<[store := obj_set (the_obj w store) key v]> (heap w))))
    as Hrun.
  { unfold subscribe_then_assign. cbn [run].
    rewrite (bind_ok _ _ _ _ _ (get_prop_obj _ _ _)), Hsub. simpl.
    unfold call. rewrite (bind_ok _ _ _ _ _ Hsubscribe). cbn [run].
    rewrite (bind_ok _ _ _ _ _ (set_prop_obj store key v ws)).
    unfold the_obj. rewrite Hheap. done. }
  rewrite Hrun. cbn [fst snd].
  split; [done|]. split.
  { unfold subscriptions. simpl. by rewrite Hstores. }
  split.
  { pose proof (subscribe_watcher_inv w s callback Hinv) as Hinv'. fold ws in Hinv'.
    apply watcher_inv_has_watcher in Hinv'.
    destruct Hinv' as [_ Hhas]. unfold has_watcher in *. simpl.
    apply Hhas. unfold subscriptions. rewrite Hstores. simpl.
    by destruct (_subscriptions st). }
  split.
  { apply new_events_app. rewrite Hrun. simpl. by rewrite Htrace, app_nil_r. }
  split.
  - unfold the_obj. simpl. by rewrite list_lookup_insert_ne.
  - unfold the_obj at 1. simpl. rewrite list_lookup_insert_eq by done. simpl.
    rewrite obj_get_obj_set. by rewrite decide_True.
Qed.

Lemma instance_assignment_notifies_nobody_witness :
  obj_get (the_obj counter_world 1) "a" = Some (VRef 2 "a") ∧
  subscriptions (run (subscribe_then_assign 1 7 "a" (VNum 5)) counter_world).2 0
  = [7] ∧
  new_events (run (subscribe_then_assign 1 7 "a" (VNum 5))) counter_world = [] ∧
  the_obj (run (subscribe_then_assign 1 7 "a" (VNum 5)) counter_world).2 2
  = [("a", VNum 1); ("b", VNum 2)] ∧
  obj_get (the_obj (run (subscribe_then_assign 1 7 "a" (VNum 5)) counter_world).2 1) "a"
  = Some (VNum 5).
Proof.
  split; [vm_compute; reflexivity|].
  destruct (instance_assignment_notifies_nobody counter_world 0
              (mkStore "counter" 3 2 [] None) 1 7 "a" (VNum 5))
    as (_ & Hsubs & _ & Hevents & Hstate & Ha).
  - exists (mkStore "counter" 3 2 [] None). split; [vm_compute; reflexivity|].
    split; [done|]. intros h wt Hh. vm_compute in Hh. by destruct h.
  - vm_compute. reflexivity.
  - vm_compute. reflexivity.
  - vm_compute. lia.
  - simpl. lia.
  - split; [exact Hsubs|]. split; [exact Hevents|]. split; [|exact Ha].
    etrans; [exact Hstate|]. vm_compute. reflexivity.
Defined.

(** A write through the handle of the field, [store.a.value = 5], does
    reach the state and is delivered. *)
Lemma handle_assignment_is_delivered :
  new_events (set_prop (VRef 2 "a") "value" (VNum 5)) subscribed_counter_world
  = [EvCallback 7 "counter" "direct" 2 [("a", VNum 5); ("b", VNum 2)]] ∧
  new_events (set_prop (VObj 1) "a" (VNum 5)) subscribed_counter_world = [].
Proof. split; vm_compute; reflexivity. Qed.

(** ** What [$reset] delivers *)

Lemma length_filter_ext {A} (P Q : A → Prop)
    `{∀ x, Decision (P x)} `{∀ x, Decision (Q x)} (l : list A) :
  (∀ x, x ∈ l → P x ↔ Q x) → length (filter P l) = length (filter Q l).
Proof.
  induction l as [|x l IH]; intros HPQ; [done|].
  rewrite !filter_cons.
  assert (length (filter P l) = length (filter Q l)) as Hl.
  { apply IH. intros y Hy. apply HPQ. by apply list_elem_of_further. }
  destruct (decide (P x)) as [HP|HP], (decide (Q x)) as [HQ|HQ]; simpl; try done.
  - by rewrite Hl.
  - apply (HPQ x) in HP; [done | apply list_elem_of_here].
  - apply (HPQ x) in HQ; [done | apply list_elem_of_here].
Qed.

Lemma callbacks_app evs evs' : callbacks (evs ++ evs') = callbacks evs ++ callbacks evs'.
Proof. apply omap_app. Qed.

Lemma obj_has_obj_delete_ne o k key :
  k ≠ key → obj_has (obj_delete o k) key = obj_has o key.
Proof. intros H. unfold obj_has. by rewrite obj_get_obj_delete, decide_False. Qed.

Lemma changes_obj_set_ne o k x key v :
  k ≠ key → changes (obj_set o k x) key v = changes o key v.
Proof. intros H. unfold changes. by rewrite obj_get_obj_set, decide_False. Qed.

Lemma obj_keys_has o k : k ∈ obj_keys o → obj_has o k = true.
Proof.
  intros Hk. unfold obj_has. destruct (obj_get o k) eqn:H; [done|].
  by apply obj_get_None in H.
Qed.

Lemma obj_delete_absent o key : obj_has o key = false → obj_delete o key = o.
Proof.
  unfold obj_has. induction o as [|[k v] o IH]; simpl; [done|].
  destruct (decide (k = key)); [done|]. intros H. by rewrite IH.
Qed.

Section reset_events.
Context (w : World) (root : loc) (deliver : obj → list event).
Hypothesis Hnotify : ∀ o key, notifications w root o key = deliver o.

(** The first loop delivers once for every field it removes, with the
    state as that removal leaves it. *)
Lemma reset_delete_events dflt ks o evs :
  (foldl (reset_delete w root dflt) (o, evs) ks).2
  = evs ++ flat_map deliver (removals dflt o ks).
Proof.
  revert o evs. induction ks as [|k ks IH]; intros o evs; simpl.
  - by rewrite app_nil_r.
  - unfold reset_delete at 2. simpl.
    destruct (obj_has dflt k); [apply IH|].
    destruct (obj_has o k) eqn:Hk.
    + rewrite IH, Hnotify. simpl. by rewrite <- app_assoc.
    + rewrite IH, app_nil_r. by rewrite obj_delete_absent.
Qed.

(** The second loop delivers once for every snapshot field whose
    assignment changes the state, with the state as that assignment leaves
    it. *)
Lemma reset_assign_events (l : obj) o evs :
  (foldl (reset_assign w root) (o, evs) l).2
  = evs ++ flat_map deliver (restorations o l).
Proof.
  revert o evs. induction l as [|[k v] l IH]; intros o evs; simpl.
  - by rewrite app_nil_r.
  - unfold reset_assign at 2. simpl. rewrite IH.
    destruct (changes o k v).
    + rewrite Hnotify. simpl. by rewrite <- app_assoc.
    + by rewrite app_nil_r.
Qed.
End reset_events.

Lemma removals_length dflt ks o :
  NoDup ks → (∀ k, k ∈ ks → obj_has o k = true) →
  length (removals dflt o ks)
  = length (filter (λ k, obj_has dflt k = false) ks).
Proof.
  intros Hnd. revert o. induction Hnd as [|k ks Hk Hnd IH]; intros o Hhas; [done|].
  simpl. rewrite filter_cons.
  destruct (obj_has dflt k) eqn:Hd.
  - rewrite decide_False by done. apply IH.
    intros k' Hk'. apply Hhas. by apply list_elem_of_further.
  - rewrite decide_True by done. rewrite (Hhas k) by apply list_elem_of_here.
    simpl. f_equal. apply IH.
    intros k' Hk'. rewrite obj_has_obj_delete_ne.
    + apply Hhas. by apply list_elem_of_further.
    + intros ->. done.
Qed.

Lemma restorations_length (l : obj) o :
  NoDup (obj_keys l) →
  length (restorations o l)
  = length (filter (λ kv, changes o kv.1 kv.2 = true) l).
Proof.
  unfold obj_keys. revert o.
  induction l as [|[k v] l IH]; intros o Hnd; [done|].
  simpl in Hnd. apply NoDup_cons in Hnd as [Hk Hnd].
  simpl. rewrite filter_cons. simpl.
  assert (length (restorations (obj_set o k (toRaw v)) l)
          = length (filter (λ kv, changes o kv.1 kv.2 = true) l)) as Hrest.
  { rewrite IH by done. apply length_filter_ext.
    intros [k' v'] Hin. simpl. rewrite changes_obj_set_ne; [done|].
    intros ->. apply Hk. apply list_elem_of_fmap. by exists (k', v'). }
  destruct (changes o k v) eqn:Hc.
  - rewrite decide_True by done. simpl. by rewrite Hrest.
  - rewrite decide_False by (by intros ?). done.
Qed.

Lemma callbacks_steps st subs steps :
  callbacks (flat_map (λ seen, map (callback_event st seen) subs) steps)
  = concat (replicate (length steps) subs).
Proof.
  induction steps as [|o steps IH]; simpl; [done|].
  by rewrite callbacks_app, callbacks_callback_events, IH.
Qed.

(** C8, as the code has it: [$reset] of a store whose state and snapshot
    hold no ref, and whose state no other store's watcher reaches, delivers
    to the subscribers one notification for every field it removes and then
    one for every snapshot field it sets to another value; each
    notification goes to every subscribed callback in the order of
    registration and carries the state as it is after that one change. A
    [$reset] that removes or changes [k] fields so calls every subscriber
    [k] times. *)
Theorem reset_notifications w s st live dflt :
  watcher_inv w s →
  stores w !! s = Some st →
  sole_watcher w s (reactiveState st) →
  reactiveState st ≠ defaultState st →
  heap w !! reactiveState st = Some live →
  heap w !! defaultState st = Some dflt →
  NoDup (obj_keys live) →
  NoDup (obj_keys dflt) →
  holds_no_ref live →
  holds_no_ref dflt →
  new_events (reset s) w
  = flat_map (λ seen, map (callback_event st seen) (_subscriptions st))
             (reset_steps live dflt) ∧
  length (reset_steps live dflt)
  = length (removed_fields live dflt) + length (changed_fields live dflt) ∧
  callbacks (new_events (reset s) w)
  = concat (replicate (length (removed_fields live dflt)
                       + length (changed_fields live dflt))
                      (_subscriptions st)).
Proof.
  intros Hinv Hst Hsole Hne Hlive Hdflt Hndl Hndd Hrl Hrd.
  pose proof (lookup_lt_Some _ _ _ Hlive) as Hlt.
  set (deliver := λ seen, map (callback_event st seen) (_subscriptions st)).
  assert (∀ o key, notifications w (reactiveState st) o key = deliver o)
    as Hnotify.
  { intros o key. by rewrite (notifications_subscriptions w s st). }
  assert (the_obj w (reactiveState st) = live) as Hl
    by (unfold the_obj; by rewrite Hlive).
  assert (the_obj w (defaultState st) = dflt) as Hd
    by (unfold the_obj; by rewrite Hdflt).
  assert (new_events (reset s) w = flat_map deliver (reset_steps live dflt))
    as Hevents.
  { rewrite (new_events_app _ _ (reset_result w (reactiveState st) live dflt).2).
    2: { rewrite (reset_spec _ _ _ Hst Hne Hlt), Hl, Hd; by rewrite ?Hl, ?Hd. }
    unfold reset_result, reset_steps.
    destruct (foldl (reset_delete w (reactiveState st) dflt) (live, [])
                    (obj_keys live)) as [o1 evs1] eqn:Hphase1.
    rewrite (reset_assign_events w _ deliver Hnotify).
    assert (evs1 = flat_map deliver (removals dflt live (obj_keys live))
            ∧ o1 = without_removed dflt live) as [-> ->].
    { split.
      - change evs1 with (o1, evs1).2. rewrite <- Hphase1.
        by rewrite (reset_delete_events w _ deliver Hnotify).
      - change o1 with (o1, evs1).1. rewrite <- Hphase1.
        by rewrite reset_delete_fst. }
    by rewrite flat_map_app. }
  assert (length (reset_steps live dflt)
          = length (removed_fields live dflt) + length (changed_fields live dflt))
    as Hlength.
  { unfold reset_steps. rewrite length_app.
    rewrite removals_length by (done || apply obj_keys_has).
    rewrite restorations_length by done.
    f_equal. apply length_filter_ext. intros [k v] Hin. simpl.
    assert (obj_get (without_removed dflt live) k = obj_get live k) as Hget.
    { unfold without_removed. rewrite obj_get_foldl_delete.
      rewrite (obj_keys_has dflt k), andb_false_r; [done|].
      apply list_elem_of_fmap. by exists (k, v). }
    unfold changes. by rewrite Hget. }
  split; [done|]. split; [done|].
  rewrite Hevents. unfold deliver. by rewrite callbacks_steps, Hlength.
Qed.

Lemma reset_notifications_witness :
  new_events (reset 0) changed_counter_world
  = [EvCallback 7 "counter" "direct" 2 [("a", VNum 1); ("b", VNum 20)];
     EvCallback 7 "counter" "direct" 2 [("a", VNum 1); ("b", VNum 2)]] ∧
  callbacks (new_events (reset 0) changed_counter_world) = [7; 7].
Proof.
  assert (watcher_inv changed_counter_world 0) as Hinv.
  { exists (mkStore "counter" 3 2 [7] (Some 0)). split; [vm_compute; reflexivity|].
    split; [done|]. split; [vm_compute; reflexivity|].
    intros h wt Hh _ _. vm_compute in Hh.
    destruct h as [|h]; [reflexivity|]. destruct h; discriminate Hh. }
  assert (stores changed_counter_world !! 0
          = Some (mkStore "counter" 3 2 [7] (Some 0))) as Hst
    by (vm_compute; reflexivity).
  assert (sole_watcher changed_counter_world 0 2) as Hsole.
  { intros o key h wt Hh _ _. vm_compute in Hh.
    destruct h as [|h]; [by injection Hh as <-|]. destruct h; discriminate Hh. }
  assert (heap changed_counter_world !! 2 = Some [("a", VNum 10); ("b", VNum 20)])
    as Hlive by (vm_compute; reflexivity).
  assert (heap changed_counter_world !! 3 = Some [("a", VNum 1); ("b", VNum 2)])
    as Hdflt by (vm_compute; reflexivity).
  assert (NoDup (obj_keys [("a", VNum 10); ("b", VNum 20)])) as Hndl.
  { apply (bool_decide_unpack _). vm_compute. exact I. }
  assert (NoDup (obj_keys [("a", VNum 1); ("b", VNum 2)])) as Hndd.
  { apply (bool_decide_unpack _). vm_compute. exact I. }
  assert (holds_no_ref [("a", VNum 10); ("b", VNum 20)]) as Hrl.
  { apply (bool_decide_unpack _). vm_compute. exact I. }
  assert (holds_no_ref [("a", VNum 1); ("b", VNum 2)]) as Hrd.
  { apply (bool_decide_unpack _). vm_compute. exact I. }
  assert (2 ≠ 3) as Hne by lia.
  destruct (reset_notifications _ _ _ _ _ Hinv Hst Hsole Hne Hlive Hdflt
              Hndl Hndd Hrl Hrd) as (Hevents & _ & Hcalls).
  split; [|exact Hcalls].
  etrans; [exact Hevents|]. vm_compute. reflexivity.
Defined.

(** C8 as stated fails: with one subscriber and two fields changed, one
    [$reset] calls the subscriber twice, first with [a] restored and [b]
    not yet, then with both restored. *)
Lemma reset_notifications_counterexample :
  subscriptions changed_counter_world 0 = [7] ∧
  the_obj changed_counter_world 2 = [("a", VNum 10); ("b", VNum 20)] ∧
  new_events (call (VReset 0) VUndefined) changed_counter_world
  = [EvCallback 7 "counter" "direct" 2 [("a", VNum 1); ("b", VNum 20)];
     EvCallback 7 "counter" "direct" 2 [("a", VNum 1); ("b", VNum 2)]].
Proof. repeat (split; [vm_compute; reflexivity|]). vm_compute. reflexivity. Qed.

(** ** Plugins run once each, in order, each with a context of its own *)

Lemma plugin_calls_add_trace w e :
  is_plugin e = true → plugin_calls (add_trace w [e]) = plugin_calls w ++ [e].
Proof.
  intros He. unfold plugin_calls, add_trace. simpl.
  rewrite list.filter_app. f_equal. rewrite filter_cons, decide_True; [done|].
  by rewrite He.
Qed.

(** The loop of [setupStore] over the plugins is their run in turn. *)
Lemma runPlugins_in_turn id options stavue storeInstance ps :
  ∀ from w,
    storeInstance < length (heap w) →
    runPlugins id options stavue storeInstance from ps w
    = plugins_in_turn (context_fields id options stavue storeInstance)
                      storeInstance from ps w.
Proof.
  induction ps as [|plugin ps IH]; intros from w Hlt; [done|].
  unfold runPlugins. simpl.
  fold (context_fields id options stavue storeInstance).
  fold (runPlugins id options stavue storeInstance (S from) ps).
  set (fields := context_fields id options stavue storeInstance).
  rewrite bind_unfold.
  rewrite (bind_ok _ _ _ _ _ (alloc_eq _ _)).
  rewrite (bind_ok _ _ _ _ _ (read_eq _ _)).
  rewrite (bind_ok _ _ _ _ _ (read_eq _ _)).
  set (w1 := set_heap w (heap w ++ [fields])).
  assert (the_obj w1 (length (heap w)) = fields) as ->.
  { unfold the_obj, w1. simpl. by rewrite list_lookup_middle. }
  assert (the_obj w1 storeInstance = the_obj w storeInstance) as ->.
  { unfold the_obj, w1. simpl. by rewrite lookup_app_l. }
  rewrite bind_unfold. unfold emit at 1. cbn [fst snd].
  change (mkWorld (heap w1) (maps w1) (stores w1) (watchers w1)
            (trace w1 ++ [EvPlugin from (length (heap w)) fields
                                   (the_obj w storeInstance)]))
    with (plugin_start fields storeInstance from w).
  pose proof (run_respects heap_grows (plugin (length (heap w)))
                (plugin_start fields storeInstance from w)) as Hgrow.
  destruct (run (plugin (length (heap w)))
                (plugin_start fields storeInstance from w)) as [[[]|e] w2]; [|done].
  apply IH. unfold heap_grows in Hgrow. simpl in Hgrow.
  rewrite length_app in Hgrow. lia.
Qed.

Lemma runPlugins_calls id options stavue storeInstance ps :
  ∀ from w w',
    runPlugins id options stavue storeInstance from ps w = (Ok (), w') →
    ∃ calls,
      length calls = length ps ∧
      plugin_calls w'
      = plugin_calls w
        ++ plugin_events (context_fields id options stavue storeInstance) from calls ∧
      Forall (λ c, length (heap w) ≤ c.1 < length (heap w')) calls ∧
      NoDup calls.*1.
Proof.
  induction ps as [|plugin ps IH]; intros from w w' H.
  - injection H as <-. exists []. simpl. rewrite app_nil_r.
    repeat split; try done; constructor.
  - unfold runPlugins in H. simpl in H. fold (context_fields id options stavue storeInstance) in H.
    apply bind_inv_ok in H as ([] & w2 & Hplugin & Hrest).
    rewrite (bind_ok _ _ _ _ _ (alloc_eq _ _)) in Hplugin.
    rewrite (bind_ok _ _ _ _ _ (read_eq _ _)) in Hplugin.
    rewrite (bind_ok _ _ _ _ _ (read_eq _ _)) in Hplugin.
    set (fields := context_fields id options stavue storeInstance) in *.
    set (w1 := set_heap w (heap w ++ [fields])) in *.
    assert (the_obj w1 (length (heap w)) = fields) as Hfields.
    { unfold the_obj, w1. simpl. by rewrite list_lookup_middle. }
    rewrite Hfields in Hplugin.
    rewrite bind_unfold in Hplugin. unfold emit at 1 in Hplugin. cbn [fst snd] in Hplugin.
    set (call := EvPlugin from (length (heap w)) fields (the_obj w1 storeInstance)) in *.
    fold (add_trace w1 [call]) in Hplugin.
    pose proof (run_respects (same plugin_calls) (plugin (length (heap w)))
                  (add_trace w1 [call])) as Hcalls.
    pose proof (run_respects heap_grows (plugin (length (heap w)))
                  (add_trace w1 [call])) as Hgrow.
    rewrite Hplugin in Hcalls, Hgrow. unfold same, heap_grows in Hcalls, Hgrow.
    simpl in Hcalls, Hgrow. rewrite length_app in Hgrow. simpl in Hgrow.
    fold (runPlugins id options stavue storeInstance (S from) ps) in Hrest.
    destruct (IH (S from) w2 w' Hrest) as (calls & Hlen & Hpc & Hfresh & Hnd).
    exists ((length (heap w), the_obj w1 storeInstance) :: calls).
    assert (length (heap w2) ≤ length (heap w')) as Hgrow'.
    { destruct calls as [|c calls]; [|apply Forall_cons in Hfresh as [? _]; lia].
      destruct ps; [|done]. by injection Hrest as <-. }
    split; [simpl; by rewrite Hlen|]. split; [|split].
    + rewrite Hpc, Hcalls.
      rewrite (plugin_calls_add_trace w1 call) by done.
      rewrite <- app_assoc. f_equal. unfold plugin_events. simpl.
      rewrite Nat.add_0_r. f_equal. apply imap_ext. intros i c _. simpl.
      f_equal. lia.
    + apply Forall_cons. split; [simpl; lia|].
      eapply Forall_impl; [apply Hfresh|]. intros c Hc. simpl in *. lia.
    + simpl. apply NoDup_cons. split; [|done].
      intros Hin. apply list_elem_of_fmap in Hin as (c & Hc1 & Hc).
      rewrite Forall_forall in Hfresh. apply Hfresh in Hc. lia.
Qed.

(** Plugins that record their names leave the names, in list order. *)
Lemma recording_plugins_logged fields storeInstance names :
  ∀ from w w',
    plugins_in_turn fields storeInstance from (recording_plugin <$> names) w
    = (Ok (), w') →
    logged w' = logged w ++ (VStr <$> names).
Proof.
  induction names as [|name names IH]; intros from w w' H; simpl in *.
  - injection H as <-. by rewrite app_nil_r.
  - apply IH in H. rewrite H. unfold logged. simpl.
    rewrite !omap_app. simpl. by rewrite app_nil_r, <- app_assoc.
Qed.

(** C9, as the code has it: when assembly succeeds, the plugins have run in
    turn, after the wiring of state, actions, getters and methods: each one
    once, in the order of the list, in the world that the plugin before it
    has left, so with the instance as that plugin has left it. Each received
    a context object created for its call, with the four fields [store],
    [id], [options], [app], the store being the one instance. Plugins that
    record their names leave exactly the names, in list order. *)
Theorem plugins_run_in_order id options stavue w storeInstance w' :
  setupStore id options stavue w = (Ok storeInstance, w') →
  ∃ s st w1 calls,
    assemble id options w = (Ok (storeInstance, s), w1) ∧
    stores w1 !! s = Some st ∧
    the_obj w1 storeInstance
    = wired storeInstance (reactiveState st) (the_obj w1 (reactiveState st))
            options s ∧
    plugins_in_turn (context_fields id options stavue storeInstance)
                    storeInstance 0 (plugins stavue) w1 = (Ok (), w') ∧
    length calls = length (plugins stavue) ∧
    plugin_calls w'
    = plugin_calls w
      ++ plugin_events (context_fields id options stavue storeInstance) 0 calls ∧
    NoDup calls.*1 ∧
    Forall (λ c, length (heap w1) ≤ c.1) calls ∧
    ∀ names, plugins stavue = recording_plugin <$> names →
             logged w' = logged w ++ (VStr <$> names).
Proof.
  intros H. destruct (setupStore_inv _ _ _ _ _ _ H) as (s & w1 & Ha & Hr).
  destruct (runPlugins_calls _ _ _ _ _ _ _ _ Hr)
    as (calls & Hlen & Hpc & Hfresh & Hnd).
  pose proof Ha as Ha'.
  destruct (assemble_state_ok _ _ _ _ _ Ha) as (fields & Hst).
  destruct (assemble_spec id options fields w Hst)
    as (init & d & wc & Hspec & Hinit & Hd & Hdlen & Hext & _).
  rewrite Hspec in Ha'. injection Ha' as Hinst Hs Hw1.
  apply prefix_length in Hext. rewrite length_app in Hext. simpl in Hext.
  assert (storeInstance < length (heap w1)) as Hlt.
  { rewrite <- Hw1, <- Hinst. simpl. rewrite length_insert. lia. }
  exists s, (mkStore id d init [] None), w1, calls.
  split; [done|]. split.
  { rewrite <- Hw1, <- Hs. simpl. by apply list_lookup_middle. }
  split.
  { rewrite <- Hw1, <- Hinst, <- Hs. unfold the_obj. simpl.
    rewrite list_lookup_insert_eq by lia.
    rewrite list_lookup_insert_ne by lia. done. }
  split.
  { by rewrite <- runPlugins_in_turn. }
  split; [done|].
  assert (plugin_calls w1 = plugin_calls w ∧ logged w1 = logged w) as [Hpc1 Hlog1].
  { rewrite <- Hw1. unfold plugin_calls, logged. simpl.
    rewrite list.filter_app, omap_app. simpl. by rewrite !app_nil_r. }
  split; [by rewrite Hpc, Hpc1|]. split; [done|]. split.
  - eapply Forall_impl; [apply Hfresh|]. intros c Hc. simpl in Hc. lia.
  - intros names Hnames.
    rewrite runPlugins_in_turn, Hnames in Hr by done.
    apply recording_plugins_logged in Hr. by rewrite Hr, Hlog1.
Qed.

Lemma plugins_run_in_order_witness :
  logged (setupStore "counter" counter_options recording_stavue plain_world).2
  = [VStr "p1"; VStr "p2"].
Proof.
  destruct (setupStore "counter" counter_options recording_stavue plain_world)
    as [r w'] eqn:H.
  assert (r = Ok 1) as -> by (by vm_compute in H; injection H as <- _).
  destruct (plugins_run_in_order _ _ _ _ _ _ H)
    as (s & st & w1 & calls & _ & _ & _ & _ & _ & _ & _ & _ & Hnames).
  exact (Hnames ["p1"; "p2"] eq_refl).
Defined.

(** C9 as stated fails on the context: the two plugins of one assembly
    receive two different context objects; what the first writes into its
    context ([id], [extra]) the second does not find in its own, while what
    the first writes into the store ([patched]) the second does find. *)
Lemma plugins_same_context_counterexample :
  plugin_contexts plugin_world = [(0, 4); (1, 5)] ∧
  obj_get (the_obj plugin_world 4) "id" = Some (VStr "changed") ∧
  obj_get (the_obj plugin_world 4) "extra" = Some (VNum 1) ∧
  obj_get (the_obj plugin_world 5) "id" = Some (VStr "counter") ∧
  obj_get (the_obj plugin_world 5) "extra" = None ∧
  logged plugin_world
  = [VStr "p1"; VStr "p2"; VStr "counter"; VUndefined; VNum 1].
Proof. repeat (split; [vm_compute; reflexivity|]). vm_compute. reflexivity. Qed.

(** ** The snapshot after [$reset] *)

(** C3 fails on the code: [$reset] assigns the nested objects of the
    snapshot themselves to the live state, so after a [$reset] a write to
    a nested object of the live state writes into the snapshot. With state
    [{ a: { x: 1 } }], after [store.$reset(); store.a.value.x = 2] the
    snapshot reads [{ a: { x: 2 } }], and a second [$reset] leaves the state
    at [{ a: { x: 2 } }]. *)
Lemma snapshot_shared_after_reset :
  stores nested_world !! 0 = Some (mkStore "nested" 5 3 [] None) ∧
  read_data 3 (heap nested_world) (VObj 3)
  = Some (DObj [("a", DObj [("x", DNum 1)])]) ∧
  read_data 3 (heap nested_world) (VObj 5)
  = Some (DObj [("a", DObj [("x", DNum 1)])]) ∧
  obj_get (the_obj nested_written_world 3) "a"
  = obj_get (the_obj nested_written_world 5) "a" ∧
  read_data 3 (heap nested_written_world) (VObj 5)
  = Some (DObj [("a", DObj [("x", DNum 2)])]) ∧
  read_data 3 (heap (call (VReset 0) VUndefined nested_written_world).2) (VObj 3)
  = Some (DObj [("a", DObj [("x", DNum 2)])]).
Proof. repeat (split; [vm_compute; reflexivity|]). vm_compute. reflexivity. Qed.

(** * Further properties *)

(** ** Several stores, several registries *)

(** The instance that [setupStore] returns is a new object. *)
Lemma setupStore_new_instance id options stavue w storeInstance w' :
  setupStore id options stavue w = (Ok storeInstance, w') →
  storeInstance = length (heap w) ∧ storeInstance < length (heap w').
Proof.
  intros H.
  destruct (setupStore_inv _ _ _ _ _ _ H) as (s & w1 & Ha & Hp).
  pose proof (assemble_instance _ _ _ _ _ _ Ha) as ->.
  split; [done|].
  destruct (assemble_state_ok _ _ _ _ _ Ha) as [fields Hfields].
  destruct (assemble_spec id options fields w Hfields)
    as (initialState & defaultState & wc & Hspec & H1 & H2 & H3 & _).
  rewrite Hspec in Ha. injection Ha as _ <-.
  pose proof (runPlugins_respects heap_grows id options stavue (length (heap w)) 0
                (plugins stavue)) as Hgrows.
  specialize (Hgrows (λ w e _, le_n (length (heap w)))).
  match type of Hp with ?m ?w1 = _ => specialize (Hgrows w1) end.
  rewrite Hp in Hgrows. unfold heap_grows in Hgrows. simpl in Hgrows.
  rewrite length_insert in Hgrows. lia.
Qed.

(** What a call of [useStore] does to the registration of another
    identifier, and to another registry: nothing. *)
Lemma useStore_other_id id id' options stavue w r w' :
  id' ≠ id →
  defineStore id options (Some stavue) w = (r, w') →
  registered stavue id' w' = registered stavue id' w.
Proof.
  intros Hne H.
  destruct (registered stavue id w) as [inst|] eqn:Hreg.
  - rewrite (useStore_cached _ _ _ _ inst) in H by done. by injection H as _ <-.
  - rewrite useStore_fresh in H by done.
    pose proof (setupStore_same_maps id options stavue w) as Hmaps.
    destruct (setupStore id options stavue w) as [[store|e] w1];
      unfold same in Hmaps; simpl in Hmaps.
    + rewrite bind_unfold in H. simpl in H. injection H as _ <-.
      unfold registered, the_map. simpl. rewrite <- Hmaps.
      destruct (decide (activeStores stavue < length (maps w1))) as [Hlt|Hge].
      * rewrite list_lookup_insert_eq by done. simpl.
        by rewrite lookup_insert_ne.
      * by rewrite list_insert_ge by lia.
    + injection H as _ <-. unfold registered, the_map. by rewrite Hmaps.
Qed.

Lemma useStore_other_map id options stavue w r w' m :
  m ≠ activeStores stavue →
  defineStore id options (Some stavue) w = (r, w') →
  the_map m w' = the_map m w.
Proof.
  intros Hne H.
  destruct (registered stavue id w) as [inst|] eqn:Hreg.
  - rewrite (useStore_cached _ _ _ _ inst) in H by done. by injection H as _ <-.
  - rewrite useStore_fresh in H by done.
    pose proof (setupStore_same_maps id options stavue w) as Hmaps.
    destruct (setupStore id options stavue w) as [[store|e] w1];
      unfold same in Hmaps; simpl in Hmaps.
    + rewrite bind_unfold in H. simpl in H. injection H as _ <-.
      unfold the_map. simpl. rewrite <- Hmaps.
      by rewrite list_lookup_insert_ne.
    + injection H as _ <-. unfold the_map. by rewrite Hmaps.
Qed.

Lemma useStore_maps_length id options stavue w r w' :
  defineStore id options (Some stavue) w = (r, w') →
  length (maps w') = length (maps w).
Proof.
  intros H.
  destruct (registered stavue id w) as [inst|] eqn:Hreg.
  - rewrite (useStore_cached _ _ _ _ inst) in H by done. by injection H as _ <-.
  - rewrite useStore_fresh in H by done.
    pose proof (setupStore_same_maps id options stavue w) as Hmaps.
    destruct (setupStore id options stavue w) as [[store|e] w1];
      unfold same in Hmaps; simpl in Hmaps.
    + rewrite bind_unfold in H. simpl in H. injection H as _ <-.
      simpl. by rewrite length_insert, Hmaps.
    + injection H as _ <-. by rewrite Hmaps.
Qed.

(** A first call returns a new object and registers it. *)
Lemma useStore_first id options stavue w v w' :
  activeStores stavue < length (maps w) →
  registered stavue id w = None →
  defineStore id options (Some stavue) w = (Ok v, w') →
  v = VObj (length (heap w)) ∧ length (heap w) < length (heap w') ∧
  registered stavue id w' = Some (length (heap w)).
Proof.
  intros Hm Hnone H.
  destruct (useStore_registers _ _ _ _ _ _ Hm H) as (inst & -> & Hreg).
  rewrite useStore_fresh in H by done.
  destruct (setupStore id options stavue w) as [[store|e] w1] eqn:Hsetup; [|done].
  destruct (setupStore_new_instance _ _ _ _ _ _ Hsetup) as [-> Hlt].
  rewrite bind_unfold in H. simpl in H.
  injection H as Hv <-. simpl.
  assert (inst = length (heap w)) as ->.
  { pose proof (setupStore_same_maps id options stavue w) as Hmaps.
    rewrite Hsetup in Hmaps. unfold same in Hmaps. simpl in Hmaps.
    unfold registered, the_map in Hreg. simpl in Hreg.
    rewrite list_lookup_insert_eq in Hreg by (by rewrite Hmaps).
    simpl in Hreg. rewrite lookup_insert_eq in Hreg. by injection Hreg. }
  done.
Qed.

(** An identifier that is registered wins over the definition given:
    [useStore] of any other definition with the same identifier returns the
    registered instance and changes nothing; the state factory, actions and
    getters of that definition are never used. *)
Theorem useStore_identifier_taken id options options' stavue w v w' :
  activeStores stavue < length (maps w) →
  defineStore id options (Some stavue) w = (Ok v, w') →
  defineStore id options' (Some stavue) w' = (Ok v, w').
Proof.
  intros Hm H.
  destruct (useStore_registers _ _ _ _ _ _ Hm H) as (inst & -> & Hreg).
  by rewrite (useStore_cached _ _ _ _ inst).
Qed.

Lemma useStore_identifier_taken_witness :
  defineStore "counter" nested_options (Some plain_stavue) counter_world
  = (Ok (VObj 1), counter_world).
Proof.
  apply (useStore_identifier_taken "counter" counter_options nested_options
           plain_stavue plain_world).
  - vm_compute. lia.
  - vm_compute. reflexivity.
Defined.

(** Two identifiers of one registry get two instances: the second first
    call returns an object that did not exist when the first instance was
    made, both stay registered, and each [useStore] keeps returning its own
    instance. *)
Theorem useStore_two_identifiers id1 id2 options1 options2 stavue w v1 w1 v2 w2 :
  activeStores stavue < length (maps w) →
  id1 ≠ id2 →
  registered stavue id1 w = None →
  registered stavue id2 w = None →
  defineStore id1 options1 (Some stavue) w = (Ok v1, w1) →
  defineStore id2 options2 (Some stavue) w1 = (Ok v2, w2) →
  v1 = VObj (length (heap w)) ∧ v2 = VObj (length (heap w1)) ∧ v1 ≠ v2 ∧
  registered stavue id1 w2 = Some (length (heap w)) ∧
  registered stavue id2 w2 = Some (length (heap w1)) ∧
  defineStore id1 options1 (Some stavue) w2 = (Ok v1, w2) ∧
  defineStore id2 options2 (Some stavue) w2 = (Ok v2, w2) ∧
  state_calls w2 = state_calls w ++ [EvState id1; EvState id2].
Proof.
  intros Hm Hne Hnone1 Hnone2 H1 H2.
  destruct (useStore_first _ _ _ _ _ _ Hm Hnone1 H1) as (-> & Hlt1 & Hreg1).
  assert (activeStores stavue < length (maps w1)) as Hm1
    by (by rewrite (useStore_maps_length _ _ _ _ _ _ H1)).
  assert (registered stavue id2 w1 = None) as Hnone2'
    by (by rewrite (useStore_other_id _ _ _ _ _ _ _ (not_eq_sym Hne) H1)).
  destruct (useStore_first _ _ _ _ _ _ Hm1 Hnone2' H2) as (-> & Hlt2 & Hreg2).
  assert (registered stavue id1 w2 = Some (length (heap w))) as Hreg1'
    by (by rewrite (useStore_other_id _ _ _ _ _ _ _ Hne H2)).
  split; [done|]. split; [done|].
  split; [intros [=]; lia|].
  split; [done|]. split; [done|].
  split; [by apply useStore_cached|].
  split; [by apply useStore_cached|].
  rewrite (useStore_calls_state_once _ _ _ _ _ _ Hnone2' H2).
  rewrite (useStore_calls_state_once _ _ _ _ _ _ Hnone1 H1).
  by rewrite <- app_assoc.
Qed.

Lemma useStore_two_identifiers_witness :
  ∃ w2,
    defineStore "nested" nested_options (Some plain_stavue) counter_world
    = (Ok (VObj 4), w2) ∧
    registered plain_stavue "counter" w2 = Some 1 ∧
    registered plain_stavue "nested" w2 = Some 4 ∧
    state_calls w2 = [EvState "counter"; EvState "nested"].
Proof.
  destruct (defineStore "nested" nested_options (Some plain_stavue) counter_world)
    as [r w2] eqn:H2.
  assert (r = Ok (VObj 4)) as ->
    by (vm_compute in H2; by injection H2 as <- _).
  assert (activeStores plain_stavue < length (maps plain_world)) as Hm
    by (vm_compute; lia).
  assert ("counter" ≠ "nested") as Hne by discriminate.
  assert (registered plain_stavue "counter" plain_world = None) as Hn1
    by reflexivity.
  assert (registered plain_stavue "nested" plain_world = None) as Hn2
    by reflexivity.
  assert (defineStore "counter" counter_options (Some plain_stavue) plain_world
          = (Ok (VObj 1), counter_world)) as H1
    by (vm_compute; reflexivity).
  destruct (useStore_two_identifiers _ _ _ _ _ _ _ _ _ _ Hm Hne Hn1 Hn2 H1 H2)
    as (_ & _ & _ & Hr1 & Hr2 & _ & _ & Hcalls).
  exists w2. split; [reflexivity|]. split; [exact Hr1|]. split; [exact Hr2|].
  exact Hcalls.
Defined.

(** [createStavue] makes a registry of its own, with no store in it, and
    leaves the registries there are as they are. *)
Lemma createStavue_spec options w :
  createStavue options w
  = (Ok (mkStavue (VObj (length (heap w))) (length (maps w)) (default [] options)),
     mkWorld (heap w ++ [[]]) (maps w ++ [∅]) (stores w) (watchers w) (trace w)).
Proof. reflexivity. Qed.

(** Registries are separate: a registry made by [createStavue] starts
    without stores, whatever other registries hold; a [useStore] call on one
    registry changes no other registry; and one definition used on two
    registries gives two instances, each registry keeping its own, with one
    state factory call each. *)
Theorem registries_are_separate options1 options2 id options w
    stavue1 w1 stavue2 w2 v1 w3 v2 w4 :
  createStavue options1 w = (Ok stavue1, w1) →
  createStavue options2 w1 = (Ok stavue2, w2) →
  defineStore id options (Some stavue1) w2 = (Ok v1, w3) →
  defineStore id options (Some stavue2) w3 = (Ok v2, w4) →
  activeStores stavue1 ≠ activeStores stavue2 ∧
  (∀ id', registered stavue1 id' w2 = None ∧ registered stavue2 id' w2 = None) ∧
  registered stavue2 id w3 = None ∧
  v1 ≠ v2 ∧
  defineStore id options (Some stavue1) w4 = (Ok v1, w4) ∧
  defineStore id options (Some stavue2) w4 = (Ok v2, w4) ∧
  state_calls w4 = state_calls w ++ [EvState id; EvState id].
Proof.
  rewrite !createStavue_spec. intros [= <- <-] [= <- <-]. simpl.
  set (s1 := mkStavue _ (length (maps w)) _).
  set (s2 := mkStavue _ (length (maps w ++ [∅])) _).
  set (w2 := mkWorld _ _ _ _ _).
  intros H1 H2.
  assert (activeStores s1 ≠ activeStores s2) as Hne
    by (simpl; rewrite length_app; simpl; lia).
  assert (∀ id', registered s1 id' w2 = None ∧ registered s2 id' w2 = None) as Hnone.
  { intros id'. unfold registered, the_map. simpl. split.
    - rewrite lookup_app_l by (rewrite length_app; simpl; lia).
      by rewrite lookup_app_r, Nat.sub_diag by lia.
    - by rewrite lookup_app_r, Nat.sub_diag by lia. }
  assert (activeStores s1 < length (maps w2)) as Hm1
    by (simpl; rewrite !length_app; simpl; lia).
  assert (activeStores s2 < length (maps w2)) as Hm2
    by (simpl; rewrite !length_app; simpl; lia).
  destruct (useStore_first _ _ _ _ _ _ Hm1 (proj1 (Hnone id)) H1) as (-> & Hlt1 & Hreg1).
  assert (registered s2 id w3 = None) as Hnone3.
  { unfold registered. rewrite (useStore_other_map _ _ _ _ _ _ _ (not_eq_sym Hne) H1).
    apply Hnone. }
  assert (activeStores s2 < length (maps w3)) as Hm3
    by (by rewrite (useStore_maps_length _ _ _ _ _ _ H1)).
  destruct (useStore_first _ _ _ _ _ _ Hm3 Hnone3 H2) as (-> & Hlt2 & Hreg2).
  split; [done|]. split; [done|]. split; [done|].
  split.
  { assert (∀ a b : nat, a < b → VObj a ≠ VObj b) as Hobj
      by (intros a b Hab [=]; lia).
    by apply Hobj. }
  split.
  { change (defineStore id options (Some s1) w4 = (Ok (VObj (length (heap w2))), w4)).
    apply useStore_cached. unfold registered.
    by rewrite (useStore_other_map _ _ _ _ _ _ _ Hne H2). }
  split.
  { change (defineStore id options (Some s2) w4 = (Ok (VObj (length (heap w3))), w4)).
    by apply useStore_cached. }
  rewrite (useStore_calls_state_once _ _ _ _ _ _ Hnone3 H2).
  rewrite (useStore_calls_state_once _ _ _ _ _ _ (proj1 (Hnone id)) H1).
  by rewrite <- app_assoc.
Qed.

Lemma registries_are_separate_witness :
  ∃ stavue2 w2 w3 w4,
    createStavue None plain_world = (Ok stavue2, w2) ∧
    activeStores plain_stavue ≠ activeStores stavue2 ∧
    defineStore "counter" counter_options (Some plain_stavue) w2 = (Ok (VObj 2), w3) ∧
    defineStore "counter" counter_options (Some stavue2) w3 = (Ok (VObj 5), w4) ∧
    state_calls w4 = [EvState "counter"; EvState "counter"].
Proof.
  set (stavue2 := mkStavue (VObj 1) 1 []).
  set (w2 := (createStavue None plain_world).2).
  set (w3 := (defineStore "counter" counter_options (Some plain_stavue) w2).2).
  set (w4 := (defineStore "counter" counter_options (Some stavue2) w3).2).
  assert (createStavue None empty_world = (Ok plain_stavue, plain_world)) as Hc1
    by reflexivity.
  assert (createStavue None plain_world = (Ok stavue2, w2)) as Hc2
    by reflexivity.
  assert (defineStore "counter" counter_options (Some plain_stavue) w2
          = (Ok (VObj 2), w3)) as H3 by (vm_compute; reflexivity).
  assert (defineStore "counter" counter_options (Some stavue2) w3
          = (Ok (VObj 5), w4)) as H4 by (vm_compute; reflexivity).
  destruct (registries_are_separate _ _ _ _ _ _ _ _ _ _ _ _ _ Hc1 Hc2 H3 H4)
    as (Hne & _ & _ & _ & _ & _ & Hcalls).
  exists stavue2, w2, w3, w4.
  split; [exact Hc2|]. split; [exact Hne|].
  split; [exact H3|]. split; [exact H4|]. exact Hcalls.
Defined.

(** ** Writes through a handle *)


(** What a write through the proxy of a state that holds no ref delivers. *)
Lemma state_write_events w s st live key v :
  watcher_inv w s →
  stores w !! s = Some st →
  sole_watcher w s (reactiveState st) →
  heap w !! reactiveState st = Some live →
  holds_no_ref live →
  new_events (proxy_set (reactiveState st) key v) w
  = if changes live key v
    then map (callback_event st (obj_set live key (toRaw v))) (_subscriptions st)
    else [].
Proof.
  intros Hinv Hst Hsole Hlive Href.
  pose proof (lookup_lt_Some _ _ _ Hlive) as Hlt.
  assert (the_obj w (reactiveState st) = live) as Hl
    by (unfold the_obj; by rewrite Hlive).
  apply new_events_app. rewrite proxy_set_spec
    by (apply holds_no_ref_field; by rewrite Hl).
  rewrite Hl. cbn zeta. cbn [snd].
  destruct (changes live key v); simpl; [|by rewrite app_nil_r].
  f_equal. fold (notifications w (reactiveState st) (obj_set live key (toRaw v)) key).
  by apply (notifications_subscriptions w s st).
Qed.



(** ** [$reset] restores the snapshot *)

(** [$reset] of a state of plain values: afterwards every field of the
    state reads what the snapshot has for it, a field that the snapshot
    does not have is gone, and the snapshot is as it was. *)
Theorem reset_restores_snapshot w s st dflt :
  stores w !! s = Some st →
  reactiveState st ≠ defaultState st →
  reactiveState st < length (heap w) →
  heap w !! defaultState st = Some dflt →
  NoDup (obj_keys dflt) →
  holds_no_ref (the_obj w (reactiveState st)) →
  holds_no_ref dflt →
  (reset s w).1 = Ok () ∧
  (∀ key, obj_get (the_obj (reset s w).2 (reactiveState st)) key
          = toRaw <$> obj_get dflt key) ∧
  the_obj (reset s w).2 (defaultState st) = dflt.
Proof.
  intros Hst Hne Hlt Hdflt Hnd Hlive Href.
  assert (the_obj w (defaultState st) = dflt) as Hd
    by (unfold the_obj; by rewrite Hdflt).
  rewrite (reset_spec w s st) by (by rewrite ?Hd).
  cbn [fst snd]. split; [done|]. split.
  - intros key. rewrite the_obj_during by done. rewrite Hd.
    by apply reset_result_get.
  - by rewrite the_obj_during_ne.
Qed.

Lemma reset_restores_snapshot_witness :
  the_obj changed_counter_world 2 = [("a", VNum 10); ("b", VNum 20)] ∧
  obj_get (the_obj (reset 0 changed_counter_world).2 2) "a" = Some (VNum 1) ∧
  obj_get (the_obj (reset 0 changed_counter_world).2 2) "b" = Some (VNum 2) ∧
  obj_get (the_obj (reset 0 changed_counter_world).2 2) "c" = None.
Proof.
  split; [vm_compute; reflexivity|].
  destruct (reset_restores_snapshot changed_counter_world 0
              (mkStore "counter" 3 2 [7] (Some 0)) [("a", VNum 1); ("b", VNum 2)])
    as (_ & Hget & _).
  - vm_compute. reflexivity.
  - simpl. lia.
  - vm_compute. lia.
  - vm_compute. reflexivity.
  - apply (bool_decide_unpack _). vm_compute. exact I.
  - apply (bool_decide_unpack _). vm_compute. exact I.
  - apply (bool_decide_unpack _). vm_compute. exact I.
  - split; [exact (Hget "a")|]. split; [exact (Hget "b") | exact (Hget "c")].
Defined.

(** ** After [unsubscribe] *)

Lemma unsubscribe_heap s st callback w :
  stores w !! s = Some st → heap (unsubscribe s callback w).2 = heap w.
Proof.
  intros Hst. rewrite (unsubscribe_spec _ _ _ _ Hst). cbn [snd].
  destruct (indexOf (_subscriptions st) callback) as [index|]; [|done].
  by destruct (delete index (_subscriptions st)), (_stopWatcher st).
Qed.

Lemma unsubscribe_sole_watcher w s st callback root :
  stores w !! s = Some st →
  sole_watcher w s root → sole_watcher (unsubscribe s callback w).2 s root.
Proof.
  intros Hst Hsole o key h wt Hh Hact Htr.
  rewrite (unsubscribe_heap _ _ _ _ Hst) in Htr.
  rewrite (unsubscribe_spec _ _ _ _ Hst) in Hh. cbn [snd] in Hh.
  destruct (indexOf (_subscriptions st) callback) as [index|];
    [|by eapply Hsole].
  destruct (delete index (_subscriptions st)) as [|c subs];
    [destruct (_stopWatcher st) as [h0|]|]; simpl in Hh;
    try (by eapply Hsole).
  rewrite list_lookup_alter in Hh.
  destruct (decide (h0 = h)) as [->|_]; [|by eapply Hsole].
  destruct (watchers w !! h) as [wt0|]; [|done].
  injection Hh as <-. done.
Qed.

(** After [unsubscribe] of a callback that was registered once, a write
    to the state does not call it. *)
Theorem unsubscribed_callback_not_called w s st live callback key v :
  watcher_inv w s →
  stores w !! s = Some st →
  sole_watcher w s (reactiveState st) →
  heap w !! reactiveState st = Some live →
  holds_no_ref live →
  callback ∉ remove_first callback (_subscriptions st) →
  callback ∉ callbacks (new_events (set_prop (VRef (reactiveState st) key) "value" v)
                          (unsubscribe s callback w).2).
Proof.
  intros Hinv Hst Hsole Hlive Href Hnot.
  change (set_prop (VRef (reactiveState st) key) "value" v)
    with (proxy_set (reactiveState st) key v).
  set (w' := (unsubscribe s callback w).2).
  pose proof (unsubscribe_subscriptions w s st callback Hst) as Hst'. fold w' in Hst'.
  match type of Hst' with _ = Some ?x => set (st' := x) in * end.
  assert (new_events (proxy_set (reactiveState st) key v) w'
          = if changes live key v
            then map (callback_event st' (obj_set live key (toRaw v)))
                     (_subscriptions st')
            else []) as ->.
  { apply (state_write_events w' s st' live key v).
    - by apply unsubscribe_watcher_inv.
    - done.
    - by apply (unsubscribe_sole_watcher w s st).
    - unfold w'. by rewrite (unsubscribe_heap _ _ _ _ Hst).
    - done. }
  destruct (changes live key v); [|by apply not_elem_of_nil].
  by rewrite callbacks_callback_events.
Qed.

Lemma unsubscribed_callback_not_called_witness :
  subscriptions subscribed_counter_world 0 = [7] ∧
  7 ∉ callbacks (new_events (set_prop (VRef 2 "a") "value" (VNum 5))
                   (unsubscribe 0 7 subscribed_counter_world).2).
Proof.
  split; [vm_compute; reflexivity|].
  apply (unsubscribed_callback_not_called subscribed_counter_world 0
           (mkStore "counter" 3 2 [7] (Some 0)) [("a", VNum 1); ("b", VNum 2)]
           7 "a" (VNum 5)).
  - exists (mkStore "counter" 3 2 [7] (Some 0)). split; [vm_compute; reflexivity|].
    split; [done|]. split; [vm_compute; reflexivity|].
    intros h wt Hh _ _. vm_compute in Hh.
    destruct h as [|h]; [reflexivity|]. destruct h; discriminate Hh.
  - vm_compute. reflexivity.
  - intros o key h wt Hh _ _. vm_compute in Hh.
    destruct h as [|h]; [by injection Hh as <-|]. destruct h; discriminate Hh.
  - vm_compute. reflexivity.
  - apply (bool_decide_unpack _). vm_compute. exact I.
  - apply (bool_decide_unpack _). vm_compute. exact I.
Defined.

(** ** The watcher is deep *)






